(** * go-chord: the local vnode state machine ([vnode.go])

    A shallow embedding of [vnode.go]: the initialisation of a local
    virtual node, its stabilisation cycle, its RPC handlers and the
    successor lookup.  Methods of
    [*localVnode] become computations in a small state monad whose state
    holds the vnode, the outside world reached through the transport, and
    the trace of calls made to collaborators.  A Go runtime panic (nil
    dereference, index or slice bounds out of range) is an outcome of its
    own, so that crash paths can be stated and proved. *)

From Stdlib Require Import ZArith List String Bool Lia.
From Stdlib Require Import Strings.Byte.
From stdpp Require Import base list.

Local Open Scope Z_scope.

(** ** Go machine integers

    [int] is a 64-bit two's complement integer; addition and subtraction
    wrap around.  The wrap-around is written out wherever an operand comes
    from a caller or from a field ([n], [last_finger], [NumSuccessors]);
    counters that run over a slice stay below its length and are exact. *)
Module GoInt.

Definition min_int : Z := - 2 ^ 63.
Definition max_int : Z := 2 ^ 63 - 1.

Definition wrap (z : Z) : Z := (z + 2 ^ 63) mod 2 ^ 64 - 2 ^ 63.

Definition add (a b : Z) : Z := wrap (a + b).
Definition sub (a b : Z) : Z := wrap (a - b).

(** Go's [max(a, b int)]. *)
Definition max (a b : Z) : Z := if a <? b then b else a.

Definition in_range (z : Z) : Prop := min_int <= z <= max_int.

End GoInt.

(** ** Go slices

    Slices of [*Vnode] are lists of optional values ([None] is the nil
    pointer).  Reading or writing outside [0, len) and slicing outside
    [0 <= i <= j <= cap] panic in Go: the operations below return [None]
    there.  Every slice of this file is created by [make] with equal length
    and capacity and is never re-sliced in place, so [cap = len]. *)
Module Slice.

Definition len {A} (l : list A) : Z := Z.of_nat (length l).

(** [l[i]] *)
Definition index {A} (l : list A) (i : Z) : option A :=
  if 0 <=? i then l !! Z.to_nat i else None.

(** [l[i] = x] *)
Definition store {A} (l : list A) (i : Z) (x : A) : option (list A) :=
  if (0 <=? i) && (i <? len l) then Some (<[Z.to_nat i := x]> l) else None.

(** [l[i:j]] *)
Definition slice {A} (l : list A) (i j : Z) : option (list A) :=
  if (0 <=? i) && (i <=? j) && (j <=? len l)
  then Some (take (Z.to_nat (j - i)) (drop (Z.to_nat i) l))
  else None.

(** [copy(l[0:], l[1:])] on one backing array: every element moves one
    place down and the last one stays where it was. *)
Definition copy_down {A} (l : list A) : list A :=
  drop 1 l ++ drop (length l - 1) l.

End Slice.

(** ** Data model *)

(** An identifier is a byte string ([[]byte]). *)
Definition Identifier := list byte.

(** [type Vnode struct { Id []byte; Host string }] *)
Record Vnode := mkVnode { Id : Identifier; Host : string }.

(** The Go [error] interface, by its message; [option error] is a possibly
    nil error. *)
Definition error := string.

(** The fields of [Config] and [Ring] that [vnode.go] reads. *)
Record Config := mkConfig { NumSuccessors : Z; HashBits : Z }.
Record Ring := mkRing { config : Config; shutdown : bool }.

(** [localVnode]: the embedded [Vnode], the ring it belongs to and the
    mutable routing state.  [stabilized] is an instant, [timer] the delay of
    the pending stabilise timer ([None] is the nil timer). *)
Record localVnode := mkLocal {
  self : Vnode;
  ring : Ring;
  successors : list (option Vnode);
  finger : list (option Vnode);
  last_finger : Z;
  predecessor : option Vnode;
  stabilized : Z;
  timer : option Z
}.

Definition set_successors (l : list (option Vnode)) (v : localVnode) :=
  mkLocal (self v) (ring v) l (finger v) (last_finger v) (predecessor v)
          (stabilized v) (timer v).
Definition set_finger (l : list (option Vnode)) (v : localVnode) :=
  mkLocal (self v) (ring v) (successors v) l (last_finger v) (predecessor v)
          (stabilized v) (timer v).
Definition set_last_finger (i : Z) (v : localVnode) :=
  mkLocal (self v) (ring v) (successors v) (finger v) i (predecessor v)
          (stabilized v) (timer v).
Definition set_predecessor (p : option Vnode) (v : localVnode) :=
  mkLocal (self v) (ring v) (successors v) (finger v) (last_finger v) p
          (stabilized v) (timer v).
Definition set_stabilized (t : Z) (v : localVnode) :=
  mkLocal (self v) (ring v) (successors v) (finger v) (last_finger v)
          (predecessor v) t (timer v).
Definition set_timer (t : option Z) (v : localVnode) :=
  mkLocal (self v) (ring v) (successors v) (finger v) (last_finger v)
          (predecessor v) (stabilized v) t.

(** [init] (lines 17-28), by the vnode it leaves: [genId] gives the Id, the
    successor list and the finger table are made of nil entries and the
    other fields have their zero values. *)
Definition initial (me : Vnode) (r : Ring) : localVnode :=
  mkLocal me r
          (replicate (Z.to_nat (NumSuccessors (config r))) None)
          (replicate (Z.to_nat (HashBits (config r))) None)
          0 None 0 None.

(** ** Collaborators *)

(** What a log line is formatted from. *)
Inductive LogArg :=
| ArgError (e : option error)
| ArgVnode (v : Vnode).

(** A call that leaves the vnode: an RPC through the transport, a line
    written by [log.Printf], a timer armed by [time.AfterFunc]. *)
Inductive Event :=
| RpcGetPredecessor (target : option Vnode)
| RpcNotify (target : option Vnode) (me : Vnode)
| RpcPing (target : option Vnode)
| RpcFindSuccessors (target : option Vnode) (n : Z) (key : Identifier)
| LogPrintf (format : string) (args : list LogArg)
| TimerAfterFunc (delay : Z).

(** The transport of the ring, the clock and the random stabilise delay
    ([randStabilize]) are outside [vnode.go].  They are taken as functions
    of an outside world [W], which they may change: a call either answers
    with a result or with an error.  A call does not come back into the
    vnode that makes it: the handlers of one vnode are serialised. *)
Record Env (W : Type) := mkEnv {
  tGetPredecessor : option Vnode -> W -> (option Vnode * option error) * W;
  tNotify : option Vnode -> Vnode -> W ->
            (list (option Vnode) * option error) * W;
  tPing : option Vnode -> W -> (bool * option error) * W;
  tFindSuccessors : option Vnode -> Z -> Identifier -> W ->
                    (list (option Vnode) * option error) * W;
  timeNow : W -> Z * W;
  randStabilize : Config -> W -> Z * W
}.
Arguments mkEnv {W}.
Arguments tGetPredecessor {W}.
Arguments tNotify {W}.
Arguments tPing {W}.
Arguments tFindSuccessors {W}.
Arguments timeNow {W}.
Arguments randStabilize {W}.

(** The ring arithmetic ([between], [betweenRightIncl], [powerOffset]) and
    the closest-preceding iterator live in other files of the package.  The
    methods below take them as parameters.  [cpYields v key] is the finite
    sequence of non-nil results of [cp.Next()] after [cp.init(v, key)], each
    with the error returned along with it; once it is used up [Next]
    returns nil. *)
Record Helpers := mkHelpers {
  between : Identifier -> Identifier -> Identifier -> bool;
  betweenRightIncl : Identifier -> Identifier -> Identifier -> bool;
  powerOffset : Identifier -> Z -> Z -> Identifier;
  cpYields : localVnode -> Identifier -> list (Vnode * option error)
}.

(** ** The state monad of a method call *)

(** The vnode, the outside world and the calls made so far. *)
Record State (W : Type) := mkState {
  vn : localVnode;
  world : W;
  trace : list Event
}.
Arguments mkState {W}.
Arguments vn {W}.
Arguments world {W}.
Arguments trace {W}.

(** A call returns, panics (the Go runtime unwinds the goroutine), or the
    model runs out of the fuel given to a loop. *)
Inductive Outcome (W A : Type) :=
| Done (a : A) (s : State W)
| Panicked (s : State W)
| OutOfFuel.
Arguments Done {W A}.
Arguments Panicked {W A}.
Arguments OutOfFuel {W A}.

Definition M (W A : Type) : Type := State W -> Outcome W A.

(** [M W] is a monad in the sense of stdpp: [x ← m; k] runs [m] and then
    [k], and a panic in [m] skips [k]. *)
#[global] Instance M_ret {W} : MRet (M W) := fun A a s => Done a s.

#[global] Instance M_bind {W} : MBind (M W) := fun A B k m s =>
  match m s with
  | Done a s' => k a s'
  | Panicked s' => Panicked s'
  | OutOfFuel => OutOfFuel
  end.

Definition getv {W} : M W localVnode := fun s => Done (vn s) s.

Definition setv {W} (f : localVnode -> localVnode) : M W unit :=
  fun s => Done tt (mkState (f (vn s)) (world s) (trace s)).

Definition emit {W} (e : Event) : M W unit :=
  fun s => Done tt (mkState (vn s) (world s) (trace s ++ [e])).

Definition panic {W A} : M W A := fun s => Panicked s.

Definition outOfFuel {W A} : M W A := fun _ => OutOfFuel.

(** A value that Go obtains by an operation that may panic. *)
Definition orPanic {W A} (o : option A) : M W A :=
  match o with
  | Some a => mret a
  | None => panic
  end.

(** A call to a collaborator: it is recorded and may change the world. *)
Definition ask {W A} (e : Event) (f : W -> A * W) : M W A :=
  fun s =>
    let '(a, w) := f (world s) in
    Done a (mkState (vn s) w (trace s ++ [e])).

(** A collaborator that is consulted without leaving a trace. *)
Definition consult {W A} (f : W -> A * W) : M W A :=
  fun s =>
    let '(a, w) := f (world s) in
    Done a (mkState (vn s) w (trace s)).

(** [defer d] around [body]: [d] runs when [body] returns and also when it
    panics, and the panic then goes on. *)
Definition deferring {W A} (d : M W unit) (body : M W A) : M W A :=
  fun s =>
    match body s with
    | Done a s' =>
        match d s' with
        | Done _ s'' => Done a s''
        | Panicked s'' => Panicked s''
        | OutOfFuel => OutOfFuel
        end
    | Panicked s' =>
        match d s' with
        | Done _ s'' => Panicked s''
        | Panicked s'' => Panicked s''
        | OutOfFuel => OutOfFuel
        end
    | OutOfFuel => OutOfFuel
    end.

Definition is_nil {A} (o : option A) : bool :=
  match o with
  | Some _ => false
  | None => true
  end.

(** A computation that never runs out of fuel: on every state it returns or
    panics. *)
Definition returns {W A} (m : M W A) : Prop := forall s, m s <> OutOfFuel.

(** The state after [logged format] has seen [err]. *)
Definition noteError {W} (format : string) (err : option error)
  (s : State W) : State W :=
  match err with
  | Some _ =>
      mkState (vn s) (world s) (trace s ++ [LogPrintf format [ArgError err]])
  | None => s
  end.

(** ** The methods of [*localVnode] *)
Section Methods.

Context {W : Type}.
Variable H : Helpers.
Variable E : Env W.

Local Abbreviation Nodes := (list (option Vnode)).

(** [checkNewSuccessor] (lines 86-113). *)
Definition checkNewSuccessor : M W (option error) :=
  v ← getv;
  succ ← orPanic (Slice.index (successors v) 0);
  '(maybe_suc, err) ← ask (RpcGetPredecessor succ) (tGetPredecessor E succ);
  match err with
  | Some e =>
      '(alive, _) ← ask (RpcPing succ) (tPing E succ);
      if negb alive then
        setv (fun v => set_successors (Slice.copy_down (successors v)) v);;
        v ← getv;
        l ← orPanic (Slice.store (successors v)
                                 (Slice.len (successors v) - 1) None);
        setv (set_successors l);;
        mret None
      else mret (Some e)
  | None =>
      match maybe_suc with
      | None => mret None
      | Some cand =>
          s0 ← orPanic succ;
          if between H (Id (self v)) (Id s0) (Id cand) then
            '(alive, err) ← ask (RpcPing maybe_suc) (tPing E maybe_suc);
            if alive && is_nil err then
              v ← getv;
              l ← orPanic (Slice.store (successors v) 0 maybe_suc);
              setv (set_successors l);;
              mret None
            else mret err
          else mret None
      end
  end.

(** [GetPredecessor] (lines 116-118). *)
Definition GetPredecessor : M W (option Vnode * option error) :=
  v ← getv;
  mret (predecessor v, None).

(** The [range] loop of [notifySuccessor] (lines 136-141): [l] is what is
    left of [succ_list] from index [idx] on. *)
Fixpoint spliceSuccessors (l : Nodes) (idx : Z) : M W unit :=
  match l with
  | [] => mret tt
  | None :: _ => mret tt
  | Some s :: rest =>
      v ← getv;
      l' ← orPanic (Slice.store (successors v) (idx + 1) (Some s));
      setv (set_successors l');;
      spliceSuccessors rest (idx + 1)
  end.

(** [notifySuccessor] (lines 121-143).  The list that the transport hands
    back is a value of its own, not the backing array of [vn.successors]. *)
Definition notifySuccessor : M W (option error) :=
  v ← getv;
  succ ← orPanic (Slice.index (successors v) 0);
  '(succ_list, err) ← ask (RpcNotify succ (self v))
                          (tNotify E succ (self v));
  match err with
  | Some e => mret (Some e)
  | None =>
      let max_succ := NumSuccessors (config (ring v)) in
      succ_list ←
        (if Slice.len succ_list >? GoInt.sub max_succ 1
         then orPanic (Slice.slice succ_list 0 (GoInt.sub max_succ 1))
         else mret succ_list);
      spliceSuccessors succ_list 0;;
      mret None
  end.

(** The test of line 148 on a candidate that is not nil: whether the
    handler takes it as the new predecessor. *)
Definition accepts (v : localVnode) (cand : Vnode) : bool :=
  match predecessor v with
  | None => true
  | Some p => between H (Id p) (Id (self v)) (Id cand)
  end.

(** [Notify] (lines 146-154). *)
Definition Notify (maybe_pred : option Vnode)
  : M W (Nodes * option error) :=
  v ← getv;
  update ←
    match predecessor v with
    | None => mret true
    | Some p =>
        cand ← orPanic maybe_pred;
        mret (between H (Id p) (Id (self v)) (Id cand))
    end;
  (if update : bool then setv (set_predecessor maybe_pred) else mret tt);;
  v ← getv;
  mret (successors v, None).

(** The test of line 228: [key] is in the right-inclusive interval from
    the vnode's Id to the Id of [x]. *)
Definition covers (v : localVnode) (key : Identifier) (x : Vnode) : Prop :=
  betweenRightIncl H (Id (self v)) (Id x) key = true.

#[global] Instance covers_dec v key x : Decision (covers v key x).
Proof. unfold covers. apply _. Defined.

(** The first loop of [FindSuccessors] (lines 219-224): one more than the
    index of the last non-nil successor, [0] when there is none.  [i] is the
    index of the head of [l]. *)
Fixpoint knownSuccessors (l : Nodes) (i : Z) (known : Z) : Z :=
  match l with
  | [] => known
  | Some _ :: rest => knownSuccessors rest (i + 1) (i + 1)
  | None :: rest => knownSuccessors rest (i + 1) known
  end.

(** The short-circuit loop (lines 227-231) up to its [return]: the index at
    which the scan stops, if any.  [rest] is [vn.successors] from index [i]
    on: reading past its end is an index out of range, and reading [.Id] of
    a nil entry a nil dereference. *)
Fixpoint scanSuccessors (bound : Z) (key : Identifier) (rest : Nodes)
  (i : Z) : M W (option Z) :=
  if i <? bound then
    match rest with
    | [] => panic
    | None :: _ => panic
    | Some s :: rest' =>
        v ← getv;
        if betweenRightIncl H (Id (self v)) (Id s) key
        then mret (Some i)
        else scanSuccessors bound key rest' (i + 1)
    end
  else mret None.

(** The error of line 240. *)
Definition ErrExhausted : error := "Exhausted all preceeding nodes!"%string.

(** The routing loop (lines 236-252) over what the iterator yields. *)
Fixpoint tryPreceding (n : Z) (key : Identifier)
  (yields : list (Vnode * option error)) : M W (Nodes * option error) :=
  match yields with
  | [] => mret ([], Some ErrExhausted)
  | (closest, Some e) :: _ => mret ([], Some e)
  | (closest, None) :: rest =>
      '(res, err) ← ask (RpcFindSuccessors (Some closest) n key)
                        (tFindSuccessors E (Some closest) n key);
      match err with
      | None => mret (res, None)
      | Some e =>
          emit (LogPrintf "[ERR] Failed to contact %s. Got %s"
                          [ArgVnode closest; ArgError err]);;
          tryPreceding n key rest
      end
  end.

(** [FindSuccessors] (lines 217-253). *)
Definition FindSuccessors (n : Z) (key : Identifier)
  : M W (Nodes * option error) :=
  v ← getv;
  let known := knownSuccessors (successors v) 0 0 in
  hit ← scanSuccessors (GoInt.max (GoInt.sub known n) 1) key
                       (successors v) 0;
  match hit with
  | Some i =>
      l ← orPanic (Slice.slice (successors v) i (GoInt.add i n));
      mret (l, None)
  | None => tryPreceding n key (cpYields H v key)
  end.

(** The skipping loop of [fixFingerTable] (lines 173-187).  Every turn that
    goes on has stored into a further slot of [vn.finger], so the length of
    [vn.finger] is fuel enough ([skipFingers_fuel]). *)
Fixpoint skipFingers (fuel : nat) (hb : Z) (node : Vnode) : M W unit :=
  v ← getv;
  let next := GoInt.add (last_finger v) 1 in
  if next >=? hb then mret tt
  else
    let offset := powerOffset H (Id (self v)) next hb in
    if betweenRightIncl H (Id (self v)) (Id node) offset then
      l ← orPanic (Slice.store (finger v) next (Some node));
      setv (set_finger l);;
      setv (set_last_finger next);;
      match fuel with
      | O => outOfFuel
      | S fuel' => skipFingers fuel' hb node
      end
    else mret tt.

(** [fixFingerTable] (lines 157-197). *)
Definition fixFingerTable : M W (option error) :=
  v ← getv;
  let hb := HashBits (config (ring v)) in
  let offset := powerOffset H (Id (self v)) (last_finger v) hb in
  '(nodes, err) ← FindSuccessors 1 offset;
  node ← orPanic (Slice.index nodes 0);
  match node, err with
  | Some nd, None =>
      v ← getv;
      l ← orPanic (Slice.store (finger v) (last_finger v) node);
      setv (set_finger l);;
      skipFingers (length l) hb nd;;
      v ← getv;
      (if GoInt.add (last_finger v) 1 =? hb
       then setv (set_last_finger 0)
       else setv (set_last_finger (GoInt.add (last_finger v) 1)));;
      mret None
  | _, _ => mret err
  end.

(** [checkPredecessor] (lines 200-214). *)
Definition checkPredecessor : M W (option error) :=
  v ← getv;
  match predecessor v with
  | None => mret None
  | Some p =>
      '(res, err) ← ask (RpcPing (Some p)) (tPing E (Some p));
      match err with
      | Some e => mret (Some e)
      | None =>
          (if negb res then setv (set_predecessor None) else mret tt);;
          mret None
      end
  end.

(** [schedule] (lines 31-34). *)
Definition schedule : M W unit :=
  v ← getv;
  d ← consult (randStabilize E (config (ring v)));
  emit (TimerAfterFunc d);;
  setv (set_timer (Some d)).

(** [if err := step(); err != nil { log.Printf(format, err) }] *)
Definition logged (format : string) (step : M W (option error))
  : M W unit :=
  err ← step;
  match err with
  | Some _ => emit (LogPrintf format [ArgError err])
  | None => mret tt
  end.

(** The formats of the four log lines of [stabilize]. *)
Definition logNewSuccessor : string :=
  "[ERR] Error checking for new successor: %s".
Definition logNotify : string := "[ERR] Error notifying successor: %s".
Definition logFinger : string := "[ERR] Error fixing finger table: %s".
Definition logPredecessor : string :=
  "[ERR] Error checking predecessor: %s".

(** [stabilize] (lines 49-83). *)
Definition stabilize : M W unit :=
  setv (set_timer None);;
  v ← getv;
  if shutdown (ring v) then mret tt
  else
    deferring schedule
      (logged logNewSuccessor checkNewSuccessor;;
       logged logNotify notifySuccessor;;
       logged logFinger fixFingerTable;;
       logged logPredecessor checkPredecessor;;
       now ← consult (timeNow E);
       setv (set_stabilized now)).

(** ** The lookup contract as the specification words it *)

(** An answer of exactly [n] entries, none of them absent. *)
Definition completeAnswer (n : Z) (res : Nodes) : Prop :=
  Slice.len res = n /\ Forall (fun x => x <> None) res.

(** How many present successors cover [key]. *)
Definition liveCovering (v : localVnode) (key : Identifier) : Z :=
  Slice.len
    (List.filter
       (fun o =>
          match o with
          | Some x => betweenRightIncl H (Id (self v)) (Id x) key
          | None => false
          end)
       (successors v)).

(** "[FindSuccessors(n, key)] returns exactly n entries (no absent gaps)
    whenever the local successor list already contains >= n live entries
    covering [key]; otherwise it either returns a valid remote-resolved
    answer or fails with a routing-exhaustion error - never an
    empty/partial result." *)
Definition completeLookup (n : Z) (key : Identifier) (s : State W) : Prop :=
  n <= NumSuccessors (config (ring (vn s))) ->
  (n <= liveCovering (vn s) key ->
   exists res s',
     FindSuccessors n key s = Done (res, None) s' /\ completeAnswer n res)
  /\ match FindSuccessors n key s with
     | Done (res, None) _ => completeAnswer n res
     | Done (_, Some e) _ => e = ErrExhausted
     | _ => False
     end.

(** ** Notions used to state the finger fix-up *)

(** The test of line 181: the target of finger [j] is in the right-inclusive
    interval from the vnode's Id to the Id of [node]. *)
Definition fingerCovered (v : localVnode) (hb : Z) (node : Vnode) (j : Z)
  : Prop :=
  betweenRightIncl H (Id (self v)) (Id node)
                   (powerOffset H (Id (self v)) j hb) = true.

(** The vnode of [s] with another finger table and cursor. *)
Definition withFingers (fing : list (option Vnode)) (cursor : Z)
  (s : State W) : State W :=
  mkState (set_last_finger cursor (set_finger fing (vn s)))
          (world s) (trace s).

(** What [init] establishes (lines 22-23) and every method keeps: the finger
    table has [HashBits] slots and the cursor points into it. *)
Definition fingerInv (v : localVnode) : Prop :=
  Slice.len (finger v) = HashBits (config (ring v))
  /\ 0 <= last_finger v < HashBits (config (ring v))
  /\ HashBits (config (ring v)) <= GoInt.max_int.

(** The key that [fixFingerTable] resolves (line 160). *)
Definition fingerTarget (v : localVnode) : Identifier :=
  powerOffset H (Id (self v)) (last_finger v) (HashBits (config (ring v))).

(** Slot [j] of the finger table holds a node. *)
Definition filled (s : State W) (j : Z) : Prop :=
  exists nd, finger (vn s) !! Z.to_nat j = Some (Some nd).

(** Two states that agree on what [fixFingerTable] reads of the vnode
    besides its successors. *)
Definition sameFingers (s s' : State W) : Prop :=
  self (vn s') = self (vn s) /\ ring (vn s') = ring (vn s)
  /\ finger (vn s') = finger (vn s)
  /\ last_finger (vn s') = last_finger (vn s).

(** [k] cycles in which [fixFingerTable] resolved a node; between two of
    them the rest of the cycle and the RPC handlers may run, which leave
    the finger table and its cursor alone. *)
Inductive repairRun : nat -> State W -> State W -> Prop :=
| repairRun_done s : repairRun 0 s s
| repairRun_cycle k s node rest s1 s2 s2' s3 :
    FindSuccessors 1 (fingerTarget (vn s)) s
    = Done (Some node :: rest, None) s1 ->
    fixFingerTable s = Done None s2 ->
    sameFingers s2 s2' ->
    repairRun k s2' s3 ->
    repairRun (S k) s s3.

End Methods.

(** ** [init] and [genId] *)

(** [uint16(idx)]: the conversion keeps the low 16 bits. *)
Definition uint16 (z : Z) : Z := z mod 2 ^ 16.

(** The byte of value [z], for [0 <= z < 256]. *)
Definition byteOf (z : Z) : byte :=
  match Byte.of_N (Z.to_N z) with
  | Some b => b
  | None => x00
  end.

(** [binary.Write(_, binary.BigEndian, idx)] of a [uint16]: the high byte,
    then the low byte. *)
Definition bigEndian16 (u : Z) : list byte :=
  [byteOf (u / 256); byteOf (u mod 256)].

(** [vn.Id = id] *)
Definition set_id (id : Identifier) (v : localVnode) : localVnode :=
  mkLocal (mkVnode id (Host (self v))) (ring v) (successors v) (finger v)
          (last_finger v) (predecessor v) (stabilized v) (timer v).

(** [make([]*Vnode, n)]: [n] nil entries; a negative length panics.  A
    length that the allocator refuses is not modelled. *)
Definition make (n : Z) : option (list (option Vnode)) :=
  if n <? 0 then None else Some (replicate (Z.to_nat n) None).

Section Init.

Context {W : Type}.

(** What [genId] reads of the configuration: [conf.Hostname], and
    [conf.HashFunc] by the digest ([Sum(nil)]) that a fresh hash gives once
    the bytes have been written to it. *)
Variable hostname : string.
Variable hashFunc : list byte -> list byte.

(** [transport.Register]: the world once the vnode is registered.  The
    transport is handed the vnode's identity as it is at that moment. *)
Variable tRegister : Vnode -> W -> W.

(** [genId] (lines 37-46). *)
Definition genId (idx : Z) : M W unit :=
  setv (set_id (hashFunc (list_byte_of_string hostname ++ bigEndian16 idx))).

(** [init] (lines 17-28). *)
Definition init (idx : Z) : M W (option error) :=
  genId (uint16 idx);;
  v ← getv;
  succs ← orPanic (make (NumSuccessors (config (ring v))));
  setv (set_successors succs);;
  v ← getv;
  fing ← orPanic (make (HashBits (config (ring v))));
  setv (set_finger fing);;
  v ← getv;
  consult (fun w => (tt, tRegister (self v) w));;
  mret None.

End Init.

(** ** Notions used to state what the methods keep and what they send *)


(** The targets of the FindSuccessors RPCs of a trace, in order. *)
Definition lookupsSent (tr : list Event) : list (option Vnode) :=
  flat_map (fun e => match e with
                     | RpcFindSuccessors t _ _ => [t]
                     | _ => []
                     end) tr.

(** What no method changes once [init] has run: the vnode's identity, its
    ring and the lengths of its two tables. *)
Definition shape (v : localVnode) : Vnode * Ring * nat * nat :=
  (self v, ring v, length (successors v), length (finger v)).

(** The state in which a computation leaves the vnode, whether it returns
    or panics. *)
Definition final {W A} (o : Outcome W A) : option (State W) :=
  match o with
  | Done _ s => Some s
  | Panicked s => Some s
  | OutOfFuel => None
  end.

(** A computation that keeps the shape of the vnode and the finger
    invariant on every way out. *)
Definition keeps {W A} (m : M W A) : Prop :=
  forall s s', final (m s) = Some s' ->
    shape (vn s') = shape (vn s)
    /\ (fingerInv (vn s) -> fingerInv (vn s')).

(** ** The helpers of the package that are not in [vnode.go] *)
Module SpecModel.

(** Modelled from the spec: the order on identifiers, missing with
    [util.go]; "equality and ordering are byte-lexicographic on
    equal-length sequences". *)
Fixpoint compare (a b : Identifier) : comparison :=
  match a, b with
  | [], [] => Eq
  | [], _ :: _ => Lt
  | _ :: _, [] => Gt
  | x :: a', y :: b' =>
      match N.compare (Byte.to_N x) (Byte.to_N y) with
      | Eq => compare a' b'
      | c => c
      end
  end.

(** Modelled from the spec: "a < b" in that order. *)
Definition ltb (a b : Identifier) : bool :=
  match compare a b with
  | Lt => true
  | _ => false
  end.

(** Modelled from the spec: equality of identifiers in that order. *)
Definition eqb (a b : Identifier) : bool :=
  match compare a b with
  | Eq => true
  | _ => false
  end.

(** Modelled from the spec: [between], missing with [util.go]; "true iff x
    lies strictly inside the arc from a to b going clockwise, excluding
    both endpoints (handles wraparound when b < a numerically)". *)
Definition between (a b x : Identifier) : bool :=
  if ltb b a then ltb a x || ltb x b else ltb a x && ltb x b.

(** Modelled from the spec: [betweenRightIncl], missing with [util.go];
    "same arc, but includes b". *)
Definition betweenRightIncl (a b x : Identifier) : bool :=
  between a b x || eqb x b.

(** Modelled from the spec: the value of an identifier, "interpreted as
    a big-endian unsigned integer". *)
Definition toZ (id : Identifier) : Z :=
  fold_left (fun acc b => acc * 256 + Z.of_N (Byte.to_N b)) id 0.

(** Modelled from the spec: the identifier of [len] bytes with a given
    value, big-endian. *)
Fixpoint ofZ (len : nat) (z : Z) : Identifier :=
  match len with
  | O => []
  | S len' =>
      ofZ len' (z / 256) ++
      [match Byte.of_N (Z.to_N (z mod 256)) with
       | Some b => b
       | None => x00
       end]
  end.

(** Modelled from the spec: [powerOffset], missing with [util.go];
    "computes (id + 2^i) mod 2^hashBits as a same-length Identifier". *)
Definition powerOffset (id : Identifier) (i hashBits : Z) : Identifier :=
  ofZ (length id) ((toZ id + 2 ^ i) mod 2 ^ hashBits).

(** Modelled from the spec: the walk of the closest-preceding iterator,
    missing with its file; it yields "each distinct candidate whose Id lies
    between this vnode and the previous candidate (monotonically
    tightening), skipping absent/duplicate entries".  The first bound is
    the key. *)
Fixpoint walk (id prev : Identifier) (l : list (option Vnode))
  : list Vnode :=
  match l with
  | [] => []
  | None :: rest => walk id prev rest
  | Some c :: rest =>
      if between id prev (Id c)
      then c :: walk id (Id c) rest
      else walk id prev rest
  end.

(** Modelled from the spec: the closest-preceding iterator; it "walks the
    finger table from the highest index down toward the lowest, then falls
    back to the successor list".  The spec names no error of [Next]. *)
Definition cpYields (v : localVnode) (key : Identifier)
  : list (Vnode * option error) :=
  map (fun c => (c, None))
      (walk (Id (self v)) key (rev (finger v) ++ successors v)).

(** The helpers as the spec describes them. *)
Definition helpers : Helpers :=
  mkHelpers between betweenRightIncl powerOffset cpYields.

End SpecModel.

(** ** A ring of three nodes on a space of 64 identifiers *)
Module Ring64.

Definition cfg (numSuccessors : Z) : Config := mkConfig numSuccessors 6.

Definition id (n : Z) : Identifier := SpecModel.ofZ 1 n.
Definition node (n : Z) : Vnode := mkVnode (id n) "localhost"%string.

(** Node [me] of a running ring with the given successor list and an empty
    finger table. *)
Definition local (me : Z) (succs : list (option Vnode)) (cursor : Z)
  (pred : option Vnode) : localVnode :=
  mkLocal (node me) (mkRing (cfg (Slice.len succs)) false) succs
          (replicate 6 None) cursor pred 0 None.

(** A transport that gives the same answers whoever is asked.  The world
    counts the calls; the clock reads the count. *)
Definition env (gp : option Vnode * option error)
  (nt : list (option Vnode) * option error) (pg : bool * option error)
  (fs : list (option Vnode) * option error) : Env nat :=
  mkEnv (fun _ w => (gp, S w)) (fun _ _ w => (nt, S w))
        (fun _ w => (pg, S w)) (fun _ _ _ w => (fs, S w))
        (fun w => (Z.of_nat w, w)) (fun _ w => (1000, w)).

Definition unreachable : option error := Some "unreachable"%string.

(** No peer answers: every RPC fails and every probe says "not alive". *)
Definition silent : Env nat :=
  env (None, unreachable) ([], unreachable) (false, unreachable)
      ([], unreachable).

End Ring64.

(** The vnodes and transports of the examples. *)
Module Scenario.
Import Ring64.

Definition n5 : Vnode := node 5.
Definition n15 : Vnode := node 15.
Definition n20 : Vnode := node 20.
Definition n30 : Vnode := node 30.

(** Node 10 of the ring of nodes 10, 20 and 30, with
    [successors = [20, 30]]. *)
Definition n10 : localVnode := local 10 [Some n20; Some n30] 0 None.

(** Node 10 knowing only node 20 of two possible successors. *)
Definition lone (cursor : Z) : localVnode :=
  local 10 [Some n20; None] cursor None.

(** Node 10 with no successor left. *)
Definition orphan : localVnode := local 10 [None; None] 0 None.

(** Node 10 with node 5 as its predecessor. *)
Definition guarded : localVnode := local 10 [Some n20; Some n30] 0 (Some n5).

(** Node 20 answers every call but the lookup. *)
Definition flaky : Env nat :=
  env (None, None) ([], None) (true, None) ([], unreachable).

(** Node 20 answers every call, and every lookup with node 30. *)
Definition routed : Env nat :=
  env (None, None) ([], None) (true, None) ([Some n30], None).

(** Node 20 reports node 15 as its predecessor, and node 15 is alive. *)
Definition joined : Env nat :=
  env (Some n15, None) ([], None) (true, None) ([], None).

End Scenario.

(** Further vnodes and transports of the examples. *)
Module Outage.
Import Ring64 Scenario.

Definition n50 : Vnode := node 50.

(** Node 10 with [successors = [20, 30]] and node 30 in its last finger. *)
Definition fingered : localVnode :=
  set_finger [None; None; None; None; None; Some n30] n10.

(** Node 30 does not answer lookups; every other node answers them with
    node 50. *)
Definition partitioned : Env nat :=
  mkEnv (fun _ w => ((None, None), S w))
        (fun _ _ w => (([], None), S w))
        (fun _ w => ((true, None), S w))
        (fun t _ _ w =>
           (match t with
            | Some x =>
                if SpecModel.eqb (Id x) (id 30) then ([], unreachable)
                else ([Some n50], None)
            | None => ([], unreachable)
            end, S w))
        (fun w => (Z.of_nat w, w)) (fun _ w => (1000, w)).

(** The predecessor is probed and found dead, without error. *)
Definition gone : Env nat :=
  env (None, None) ([], None) (false, None) ([], None).


(** Node 20 answers every lookup with a list whose first entry is nil. *)
Definition hollow : Env nat :=
  env (None, None) ([], None) (true, None) ([None], None).

(** Node 10 knowing only node 20, after the cycle in which node 20 failed
    to answer the lookup of [fixFingerTable]. *)
Definition aborted : State nat :=
  mkState (set_timer (Some 1000) (lone 5)) 3%nat
    [RpcGetPredecessor (Some n20); RpcNotify (Some n20) (node 10);
     RpcFindSuccessors (Some n20) 1 (id 42);
     LogPrintf "[ERR] Failed to contact %s. Got %s"
               [ArgVnode n20; ArgError unreachable];
     TimerAfterFunc 1000].

(** A vnode before [init], on a ring of the given sizes. *)
Definition blank (numSuccessors hashBits : Z) : localVnode :=
  mkLocal (mkVnode [] "localhost"%string)
          (mkRing (mkConfig numSuccessors hashBits) false)
          [] [] 0 None 0 None.

(** A toy hash function: the last byte written. *)
Definition lastByte (bs : list byte) : list byte :=
  match rev bs with
  | b :: _ => [b]
  | [] => [x00]
  end.

(** A transport that counts the registrations. *)
Definition register (_ : Vnode) (w : nat) : nat := S w.

End Outage.

(** * Facts *)

Module GoIntFacts.
Import GoInt.

Lemma wrap_in_range z : in_range z -> wrap z = z.
Proof.
  unfold in_range, min_int, max_int, wrap. intros Hz.
  rewrite Z.mod_small by lia. lia.
Qed.

Lemma wrap_range z : in_range (wrap z).
Proof.
  unfold in_range, min_int, max_int, wrap.
  pose proof (Z.mod_pos_bound (z + 2 ^ 63) (2 ^ 64) ltac:(lia)). lia.
Qed.

Lemma add_small a b : in_range (a + b) -> add a b = a + b.
Proof. apply wrap_in_range. Qed.

Lemma sub_small a b : in_range (a - b) -> sub a b = a - b.
Proof. apply wrap_in_range. Qed.

Lemma max_ge_r a b : b <= max a b.
Proof. unfold max. destruct (Z.ltb_spec a b); lia. Qed.

Lemma max_spec a b : max a b = Z.max a b.
Proof. unfold max. destruct (Z.ltb_spec a b); lia. Qed.

End GoIntFacts.

Module SliceFacts.
Import Slice.

Lemma drop_last_one {A} (a : A) (l : list A) :
  exists z, drop (length l) (a :: l) = [z].
Proof.
  revert a. induction l as [|b l IH]; intros a; simpl.
  - by exists a.
  - apply IH.
Qed.

(** Shifting a non-empty slice down and clearing its last slot drops the
    head and appends nil. *)
Lemma shift_left {A} (x : option A) (l : list (option A)) :
  store (copy_down (x :: l)) (len (copy_down (x :: l)) - 1) None
  = Some (l ++ [None]).
Proof.
  unfold copy_down. simpl length.
  replace (S (length l) - 1)%nat with (length l) by lia.
  destruct (drop_last_one x l) as [z Hz]. rewrite Hz. simpl drop.
  rewrite drop_0.
  unfold store, len. rewrite length_app. simpl length.
  replace (Z.of_nat (length l + 1) - 1) with (Z.of_nat (length l)) by lia.
  destruct (Z.leb_spec 0 (Z.of_nat (length l))); [|lia].
  destruct (Z.ltb_spec (Z.of_nat (length l)) (Z.of_nat (length l + 1)));
    [|lia].
  cbn [andb]. f_equal. rewrite Nat2Z.id.
  rewrite insert_app_r_alt by lia.
  by rewrite Nat.sub_diag.
Qed.

Lemma store_head {A} (a x : A) (l : list A) :
  store (a :: l) 0 x = Some (x :: l).
Proof.
  unfold store, len. simpl length.
  destruct (Z.ltb_spec 0 (Z.of_nat (S (length l)))); [|lia]. reflexivity.
Qed.

End SliceFacts.

(** Unfolding of the monad, one layer at a time. *)
Ltac run_go :=
  cbv [mbind M_bind mret M_ret getv setv emit panic orPanic ask consult];
  cbn [vn world trace].

Section MethodFacts.

Context {W : Type}.
Variable H : Helpers.
Variable E : Env W.

(** *** checkNewSuccessor *)

(** C4: when the GetPredecessor RPC to [successors[0]] fails, the successor
    is probed.  If the probe says it is not alive, the successor list is
    shifted left by one, with an absent slot at the tail, and no error is
    returned; if the probe says it is alive, the RPC's error is returned
    and the vnode is left as it was. *)
Theorem checkNewSuccessor_rpc_failure
  (v : localVnode) (w w1 w2 : W) (tr : list Event)
  (succ cand : option Vnode) (rest : list (option Vnode))
  (e : error) (alive : bool) (pe : option error) :
  successors v = succ :: rest ->
  tGetPredecessor E succ w = ((cand, Some e), w1) ->
  tPing E succ w1 = ((alive, pe), w2) ->
  checkNewSuccessor H E (mkState v w tr) =
    if alive
    then Done (Some e)
              (mkState v w2 (tr ++ [RpcGetPredecessor succ; RpcPing succ]))
    else Done None
              (mkState (set_successors (rest ++ [None]) v) w2
                       (tr ++ [RpcGetPredecessor succ; RpcPing succ])).
Proof.
  intros Hs Hgp Hping.
  unfold checkNewSuccessor. run_go.
  rewrite Hs. simpl. rewrite Hgp. simpl. rewrite Hping. simpl.
  rewrite <- app_assoc. simpl.
  destruct alive; simpl; [reflexivity|].
  rewrite Hs, SliceFacts.shift_left. reflexivity.
Qed.

(** C5: when the GetPredecessor RPC succeeds with a candidate [p] whose Id
    is strictly between the vnode's Id and that of [successors[0]], the
    candidate is probed.  A probe that answers "alive" without error puts
    [p] in [successors[0]] and no error is returned; any other probe
    returns the probe's error and leaves the vnode as it was. *)
Theorem checkNewSuccessor_closer_candidate
  (v : localVnode) (w w1 w2 : W) (tr : list Event)
  (s0 p : Vnode) (rest : list (option Vnode))
  (alive : bool) (pe : option error) :
  successors v = Some s0 :: rest ->
  tGetPredecessor E (Some s0) w = ((Some p, None), w1) ->
  between H (Id (self v)) (Id s0) (Id p) = true ->
  tPing E (Some p) w1 = ((alive, pe), w2) ->
  checkNewSuccessor H E (mkState v w tr) =
    if alive && is_nil pe
    then Done None
              (mkState (set_successors (Some p :: rest) v) w2
                       (tr ++ [RpcGetPredecessor (Some s0);
                               RpcPing (Some p)]))
    else Done pe
              (mkState v w2
                       (tr ++ [RpcGetPredecessor (Some s0);
                               RpcPing (Some p)])).
Proof.
  intros Hs Hgp Hbetween Hping.
  unfold checkNewSuccessor. run_go.
  rewrite Hs. simpl. rewrite Hgp. simpl. rewrite Hbetween. simpl.
  rewrite Hping. simpl.
  rewrite <- app_assoc. simpl.
  destruct (alive && is_nil pe); simpl; [|reflexivity].
  rewrite Hs, SliceFacts.store_head. reflexivity.
Qed.

(** *** Notify *)

(** C6: the Notify handler makes the candidate the predecessor if and only
    if no predecessor is known or the candidate's Id is strictly between
    the predecessor's Id and the vnode's Id; in both cases it returns the
    successor list of the vnode, with no error, and touches nothing else. *)
Theorem Notify_accepts_iff_closer
  (v : localVnode) (w : W) (tr : list Event) (cand : Vnode) :
  Notify H (Some cand) (mkState v w tr) =
    Done (successors v, None)
         (mkState (if accepts H v cand
                   then set_predecessor (Some cand) v
                   else v) w tr).
Proof.
  unfold Notify, accepts. run_go.
  destruct (predecessor v) as [p|]; simpl; [|reflexivity].
  destruct (between H (Id p) (Id (self v)) (Id cand)); reflexivity.
Qed.

(** X11: a nil candidate is taken when no predecessor is known, and
    clears nothing else; with a known predecessor, reading the candidate's
    Id is a nil dereference: the handler panics, with the state as it
    was. *)
Lemma Notify_nil_candidate (v : localVnode) (w : W) (tr : list Event) :
  Notify H None (mkState v w tr) =
    match predecessor v with
    | None => Done (successors v, None)
                   (mkState (set_predecessor None v) w tr)
    | Some _ => Panicked (mkState v w tr)
    end.
Proof.
  unfold Notify. run_go. destruct (predecessor v); reflexivity.
Qed.

(** *** checkPredecessor *)

(** C7: with a known predecessor, the probe's error is returned as it is;
    the predecessor is cleared exactly when the probe answers "not alive"
    without error, and nothing else changes.  With no predecessor nothing
    happens: no RPC, no change, no error. *)
Theorem checkPredecessor_clears_only_when_certain
  (v : localVnode) (w : W) (tr : list Event) :
  (predecessor v = None ->
   checkPredecessor E (mkState v w tr) = Done None (mkState v w tr))
  /\
  (forall p alive pe w',
     predecessor v = Some p ->
     tPing E (Some p) w = ((alive, pe), w') ->
     exists v',
       checkPredecessor E (mkState v w tr)
       = Done pe (mkState v' w' (tr ++ [RpcPing (Some p)]))
       /\ (predecessor v' = None <-> alive = false /\ pe = None)
       /\ (pe <> None -> v' = v)
       /\ (v' = v \/ v' = set_predecessor None v)).
Proof.
  unfold checkPredecessor. run_go. split.
  - intros Hp. rewrite Hp. reflexivity.
  - intros p alive pe w' Hp Hping. rewrite Hp. simpl.
    rewrite Hping. simpl.
    destruct pe as [e|]; simpl.
    + exists v. split; [reflexivity|]. rewrite Hp.
      repeat split; auto; try discriminate. intros [_ ?]. discriminate.
    + destruct alive; simpl.
      * exists v. split; [reflexivity|]. rewrite Hp.
        repeat split; auto; try discriminate. intros [? _]. discriminate.
      * exists (set_predecessor None v). split; [reflexivity|].
        repeat split; auto. intros Hne. by destruct Hne.
Qed.

(** *** FindSuccessors *)

Lemma scanSuccessors_unfold bound key rest i :
  scanSuccessors (W:=W) H bound key rest i =
  if i <? bound then
    match rest with
    | [] => panic
    | None :: _ => panic
    | Some s :: rest' =>
        v ← getv;
        if betweenRightIncl H (Id (self v)) (Id s) key
        then mret (Some i)
        else scanSuccessors H bound key rest' (i + 1)
    end
  else mret None.
Proof. destruct rest; reflexivity. Qed.

Lemma knownSuccessors_nil k i known :
  knownSuccessors (replicate k None) i known = known.
Proof. revert i. induction k; intros i; simpl; auto. Qed.

Lemma knownSuccessors_live (live : list Vnode) k i known :
  knownSuccessors ((Some <$> live) ++ replicate k None) i known =
  match live with
  | [] => known
  | _ => i + Slice.len live
  end.
Proof.
  revert i known. induction live as [|x l IH]; intros i known.
  - apply knownSuccessors_nil.
  - simpl. rewrite IH. unfold Slice.len. destruct l; simpl length; lia.
Qed.

(** Over present entries the scan is a search for the first successor that
    covers [key] among those below the bound. *)
Lemma scanSuccessors_live bound key (live : list Vnode) tail i
  (s : State W) :
  bound - i <= Slice.len live ->
  scanSuccessors H bound key ((Some <$> live) ++ tail) i s =
  Done (match list_find (covers H (vn s) key)
                        (take (Z.to_nat (bound - i)) live) with
        | Some (j, _) => Some (i + Z.of_nat j)
        | None => None
        end) s.
Proof.
  revert i. induction live as [|x l IH]; intros i Hb;
    rewrite scanSuccessors_unfold; unfold Slice.len in Hb;
    simpl length in Hb.
  - destruct (Z.ltb_spec i bound); [lia|]. by rewrite take_nil.
  - destruct (Z.ltb_spec i bound).
    + replace (Z.to_nat (bound - i))
        with (S (Z.to_nat (bound - (i + 1)))) by lia.
      simpl. run_go. unfold covers at 1.
      destruct (decide _) as [Hc|Hc].
      * rewrite Hc. simpl. do 2 f_equal. lia.
      * apply not_true_is_false in Hc. rewrite Hc.
        rewrite IH by (unfold Slice.len; lia).
        destruct (list_find _ _) as [[j y]|]; simpl; do 2 f_equal. lia.
    + replace (Z.to_nat (bound - i)) with 0%nat by lia. reflexivity.
Qed.

(** What the routing loop comes to: the error-free answer of an RPC to a
    yielded node, that RPC being the last call made; or a nil slice with
    the iterator's error or the exhaustion error.  The vnode is unchanged. *)
Lemma tryPreceding_outcome n key yields (s : State W) :
  exists res err s',
    tryPreceding E n key yields s = Done (res, err) s'
    /\ vn s' = vn s
    /\ match err with
       | None =>
           exists c w0,
             In (c, None) yields
             /\ tFindSuccessors E (Some c) n key w0
                = ((res, None), world s')
             /\ last (trace s') = Some (RpcFindSuccessors (Some c) n key)
       | Some e =>
           res = []
           /\ (e = ErrExhausted \/ exists c, In (c, Some e) yields)
       end.
Proof.
  revert s. induction yields as [|[c [e|]] rest IH]; intros s.
  - exists [], (Some ErrExhausted), s. simpl. auto.
  - exists [], (Some e), s. simpl. repeat split; auto.
    right. exists c. by left.
  - simpl. run_go.
    destruct (tFindSuccessors E (Some c) n key (world s))
      as [[res [e|]] w1] eqn:Hrpc.
    + simpl.
      match goal with |- context [tryPreceding E n key rest ?s1] =>
        destruct (IH s1) as (res' & err' & s' & Heq & Hvn & Hres) end.
      exists res', err', s'. split; [exact Heq|]. split; [exact Hvn|].
      destruct err' as [e'|].
      * destruct Hres as [-> [->|[c' Hc']]]; split; auto.
        right. exists c'. by right.
      * destruct Hres as (c' & w0 & Hin & Hcall & Hlast).
        exists c', w0. split; [by right|]. auto.
    + simpl. eexists res, None, _.
      split; [reflexivity|]. split; [reflexivity|].
      exists c, (world s). split; [by left|]. split; [exact Hrpc|].
      simpl. apply last_snoc.
Qed.

(** On a successor list made of present entries followed only by absent
    ones, with at least [n >= 1] present: either the scan of the indices
    below [max(known - n, 1)] stops at the first successor that covers
    [key], and the call returns the [n] entries from there on without any
    RPC; or it finds none and the call is decided by the routing loop. *)
Lemma FindSuccessors_scan_or_route
  (s : State W) (n : Z) (key : Identifier) (live : list Vnode) (k : nat) :
  successors (vn s) = (Some <$> live) ++ replicate k None ->
  Slice.len live <= GoInt.max_int ->
  1 <= n <= Slice.len live ->
  let bound := Z.max (Slice.len live - n) 1 in
  (exists (i : nat) x,
      Z.of_nat i < bound
      /\ live !! i = Some x
      /\ covers H (vn s) key x
      /\ (forall j y, (j < i)%nat -> live !! j = Some y ->
                      ~ covers H (vn s) key y)
      /\ FindSuccessors H E n key s
         = Done (Some <$> take (Z.to_nat n) (drop i live), None) s
      /\ Slice.len (take (Z.to_nat n) (drop i live)) = n)
  \/
  ((forall (j : nat) y,
       Z.of_nat j < bound -> live !! j = Some y -> ~ covers H (vn s) key y)
   /\ exists res err s',
       FindSuccessors H E n key s = Done (res, err) s'
       /\ vn s' = vn s
       /\ match err with
          | None =>
              exists c w0,
                In (c, None) (cpYields H (vn s) key)
                /\ tFindSuccessors E (Some c) n key w0
                   = ((res, None), world s')
                /\ last (trace s')
                   = Some (RpcFindSuccessors (Some c) n key)
          | Some e =>
              res = []
              /\ (e = ErrExhausted
                  \/ exists c, In (c, Some e) (cpYields H (vn s) key))
          end).
Proof.
  intros Hsucc Hmax Hn bound.
  assert (Hlen : Slice.len live = Z.of_nat (length live)) by reflexivity.
  unfold GoInt.max_int in Hmax.
  unfold FindSuccessors. run_go. rewrite Hsucc.
  rewrite knownSuccessors_live.
  assert (Hknown :
            match live with [] => 0 | _ :: _ => 0 + Slice.len live end
            = Slice.len live) by (destruct live; reflexivity).
  rewrite Hknown.
  rewrite GoIntFacts.sub_small
    by (unfold GoInt.in_range, GoInt.min_int, GoInt.max_int; lia).
  rewrite GoIntFacts.max_spec. fold bound.
  rewrite scanSuccessors_live by (unfold bound; lia).
  rewrite Z.sub_0_r.
  destruct (list_find _ _) as [[i x]|] eqn:Hfind.
  - left. apply list_find_Some in Hfind as (Hi & Hcov & Hfirst).
    apply lookup_take_Some in Hi as [Hi Hlt].
    assert (Hib : Z.of_nat i < bound) by lia.
    assert (Hin : (i + Z.to_nat n <= length live)%nat)
      by (unfold bound in Hib; lia).
    exists i, x.
    split; [exact Hib|]. split; [exact Hi|]. split; [exact Hcov|].
    split.
    { intros j y Hj Hy. apply (Hfirst j y); [|exact Hj].
      apply lookup_take_Some. split; [exact Hy|lia]. }
    split.
    + rewrite Z.add_0_l. simpl. rewrite GoIntFacts.add_small
        by (unfold GoInt.in_range, GoInt.min_int, GoInt.max_int; lia).
      unfold Slice.slice, Slice.len.
      rewrite length_app, length_fmap, length_replicate.
      destruct (Z.leb_spec 0 (Z.of_nat i)); [|lia].
      destruct (Z.leb_spec (Z.of_nat i) (Z.of_nat i + n)); [|lia].
      destruct (Z.leb_spec (Z.of_nat i + n) (Z.of_nat (length live + k)));
        [|lia].
      simpl.
      replace (Z.to_nat (Z.of_nat i + n - Z.of_nat i)) with (Z.to_nat n)
        by lia.
      rewrite Nat2Z.id.
      rewrite drop_app_le by (rewrite length_fmap; lia).
      rewrite take_app_le by (rewrite length_drop, length_fmap; lia).
      by rewrite fmap_take, fmap_drop.
    + unfold Slice.len.
      rewrite length_take_le by (rewrite length_drop; lia). lia.
  - right. split.
    { intros j y Hj Hy. apply list_find_None in Hfind.
      rewrite Forall_forall in Hfind. apply Hfind.
      apply list_elem_of_lookup. exists j.
      apply lookup_take_Some. split; [exact Hy|lia]. }
    simpl. apply tryPreceding_outcome.
Qed.

(** C3 (amended): on a successor list made of present entries followed only
    by absent ones, with at least [n >= 1] present.  If the first successor
    that covers [key] is at index 0, or at an index [i] with
    [i + n < known], the call returns [successors[i : i+n]]: exactly [n]
    entries, none absent, with no RPC.  If no successor at an index [i]
    with [i + n <= known] covers [key], the call returns the first
    error-free answer of a FindSuccessors RPC to a node yielded by the
    iterator, as it was received, or fails with the iterator's error or
    the exhaustion error; the vnode is unchanged. *)
Theorem FindSuccessors_local_else_remote
  (s : State W) (n : Z) (key : Identifier) (live : list Vnode) (k : nat) :
  successors (vn s) = (Some <$> live) ++ replicate k None ->
  Slice.len live <= GoInt.max_int ->
  1 <= n <= Slice.len live ->
  (forall (i : nat) x,
     live !! i = Some x ->
     covers H (vn s) key x ->
     (forall j y, (j < i)%nat -> live !! j = Some y ->
                  ~ covers H (vn s) key y) ->
     i = 0%nat \/ Z.of_nat i + n < Slice.len live ->
     FindSuccessors H E n key s
     = Done (Some <$> take (Z.to_nat n) (drop i live), None) s
     /\ completeAnswer n (Some <$> take (Z.to_nat n) (drop i live)))
  /\
  ((forall (j : nat) y,
      Z.of_nat j + n <= Slice.len live -> live !! j = Some y ->
      ~ covers H (vn s) key y) ->
   exists res err s',
     FindSuccessors H E n key s = Done (res, err) s'
     /\ vn s' = vn s
     /\ match err with
        | None =>
            exists c w0,
              In (c, None) (cpYields H (vn s) key)
              /\ tFindSuccessors E (Some c) n key w0
                 = ((res, None), world s')
              /\ last (trace s')
                 = Some (RpcFindSuccessors (Some c) n key)
        | Some e =>
            res = []
            /\ (e = ErrExhausted
                \/ exists c, In (c, Some e) (cpYields H (vn s) key))
        end).
Proof.
  intros Hsucc Hmax Hn.
  pose proof (FindSuccessors_scan_or_route s n key live k
                Hsucc Hmax Hn) as Hscan.
  cbv zeta in Hscan. unfold Slice.len in *. split.
  - intros i x Hi Hcov Hfirst Hpos.
    destruct Hscan
      as [(i' & x' & Hb & Hi' & Hcov' & Hfirst' & Hrun & Hlen)
         |(Hnone & _)].
    + assert (i' = i) as ->.
      { destruct (Nat.lt_trichotomy i' i) as [Hlt|[Heq|Hgt]];
          [|exact Heq|].
        - destruct (Hfirst i' x' Hlt Hi' Hcov').
        - destruct (Hfirst' i x Hgt Hi Hcov). }
      split; [exact Hrun|]. split.
      * unfold Slice.len. rewrite length_fmap. exact Hlen.
      * apply Forall_fmap, Forall_true. discriminate.
    + destruct (Hnone i x); [lia|exact Hi|exact Hcov].
  - intros Hnone.
    destruct Hscan as [(i' & x' & Hb & Hi' & Hcov' & _)|(_ & Hroute)];
      [|exact Hroute].
    destruct (Hnone i' x'); [lia|exact Hi'|exact Hcov'].
Qed.

(** The scan reads the vnode and calls nobody. *)
Lemma scanSuccessors_pure bound key rest i (s : State W) :
  (exists r, scanSuccessors H bound key rest i s = Done r s)
  \/ scanSuccessors H bound key rest i s = Panicked s.
Proof.
  revert i. induction rest as [|[x|] rest IH]; intros i;
    rewrite scanSuccessors_unfold; destruct (i <? bound); run_go; eauto.
  destruct (betweenRightIncl _ _ _ _); eauto.
Qed.

(** What a call of [FindSuccessors] can come to: a local answer, a remote
    answer or error with the vnode unchanged, or a panic before any RPC. *)
Lemma FindSuccessors_outcome n key (s : State W) :
  (exists res err s',
      FindSuccessors H E n key s = Done (res, err) s'
      /\ vn s' = vn s
      /\ (err <> None -> res = []))
  \/ FindSuccessors H E n key s = Panicked s.
Proof.
  unfold FindSuccessors. run_go.
  set (bound := GoInt.max _ 1).
  destruct (scanSuccessors_pure bound key (successors (vn s)) 0 s)
    as [[r Hr]|Hr]; rewrite Hr; [|by right].
  destruct r as [i|].
  - destruct (Slice.slice _ _ _) as [l|]; simpl; [|by right].
    left. exists l, None, s. repeat split; auto. congruence.
  - destruct (tryPreceding_outcome n key (cpYields H (vn s) key) s)
      as (res & err & s' & Heq & Hvn & Hres).
    left. exists res, err, s'. repeat split; auto.
    intros Herr. destruct err; [tauto|congruence].
Qed.

(** C10: when every slot of the successor list is absent, the short-circuit
    scan still reads index 0, since its bound [max(known - n, 1)] is at
    least 1, and the read of that entry's Id panics: the call crashes, with
    no RPC made and no error result returned.  An empty list crashes on the
    index itself. *)
Theorem FindSuccessors_without_successors_panics
  (s : State W) (n : Z) (key : Identifier) :
  Forall (fun x => x = None) (successors (vn s)) ->
  FindSuccessors H E n key s = Panicked s.
Proof.
  intros Hnone. unfold FindSuccessors. run_go.
  rewrite scanSuccessors_unfold.
  set (known := knownSuccessors (successors (vn s)) 0 0).
  pose proof (GoIntFacts.max_ge_r (GoInt.sub known n) 1) as Hb.
  destruct (Z.ltb_spec 0 (GoInt.max (GoInt.sub known n) 1)); [|lia].
  destruct Hnone as [|x l Hx _]; [reflexivity|]. rewrite Hx. reflexivity.
Qed.

(** *** fixFingerTable *)

(** C1 (what the code does): [FindSuccessors] returns a nil slice with every
    error, and [fixFingerTable] reads [nodes[0]] before it looks at the
    error, so a failed resolve step ends in an index-out-of-range panic
    instead of returning the error. *)
Theorem fixFingerTable_resolve_error_panics
  (s s' : State W) (nodes : list (option Vnode)) (e : error) :
  FindSuccessors H E 1 (fingerTarget H (vn s)) s
  = Done (nodes, Some e) s' ->
  fixFingerTable H E s = Panicked s'.
Proof.
  intros Hfind.
  destruct (FindSuccessors_outcome 1 (fingerTarget H (vn s)) s)
    as [(res & err & s1 & Heq & _ & Hnil)|Hp]; [|congruence].
  rewrite Hfind in Heq. injection Heq as Hres Herr _. subst res err.
  unfold fixFingerTable. run_go. unfold fingerTarget in Hfind.
  rewrite Hfind, (Hnil ltac:(discriminate)). reflexivity.
Qed.

(** A vnode fresh from [init] has its finger table and cursor in order. *)
Lemma initial_fingerInv (me : Vnode) (r : Ring) :
  0 < HashBits (config r) <= GoInt.max_int ->
  fingerInv (initial me r).
Proof.
  intros Hhb. unfold fingerInv, initial, Slice.len. simpl.
  rewrite length_replicate. lia.
Qed.

Lemma skipFingers_unfold fuel hb node :
  skipFingers (W:=W) H fuel hb node =
  (v ← getv;
   let next := GoInt.add (last_finger v) 1 in
   if next >=? hb then mret tt
   else
     let offset := powerOffset H (Id (self v)) next hb in
     if betweenRightIncl H (Id (self v)) (Id node) offset then
       l ← orPanic (Slice.store (finger v) next (Some node));
       setv (set_finger l);;
       setv (set_last_finger next);;
       match fuel with
       | O => outOfFuel
       | S fuel' => skipFingers H fuel' hb node
       end
     else mret tt).
Proof. destruct fuel; reflexivity. Qed.

Lemma withFingers_same (s : State W) :
  withFingers (finger (vn s)) (last_finger (vn s)) s = s.
Proof. destruct s as [[] ? ?]. reflexivity. Qed.

Lemma store_in_range {A} (l : list A) i x :
  0 <= i < Slice.len l ->
  Slice.store l i x = Some (<[Z.to_nat i := x]> l).
Proof.
  intros Hi. unfold Slice.store.
  destruct (Z.leb_spec 0 i); [|lia].
  destruct (Z.ltb_spec i (Slice.len l)); [|lia]. reflexivity.
Qed.

Lemma skipFingers_spec fuel hb node (s : State W) :
  0 <= last_finger (vn s) < hb ->
  hb <= Slice.len (finger (vn s)) ->
  hb <= GoInt.max_int ->
  hb - 1 - last_finger (vn s) <= Z.of_nat fuel ->
  exists top fing,
    skipFingers H fuel hb node s = Done tt (withFingers fing top s)
    /\ last_finger (vn s) <= top < hb
    /\ (forall j, last_finger (vn s) < j <= top ->
                  fingerCovered H (vn s) hb node j)
    /\ (top + 1 < hb -> ~ fingerCovered H (vn s) hb node (top + 1))
    /\ (forall j, last_finger (vn s) < j <= top ->
                  fing !! Z.to_nat j = Some (Some node))
    /\ (forall j : nat, ~ (last_finger (vn s) < Z.of_nat j <= top) ->
                        fing !! j = finger (vn s) !! j)
    /\ length fing = length (finger (vn s)).
Proof.
  revert s. induction fuel as [|fuel IH]; intros s Hlf Hlen Hmax Hfuel;
    rewrite skipFingers_unfold; run_go;
    (rewrite GoIntFacts.add_small
      by (unfold GoInt.in_range, GoInt.min_int, GoInt.max_int in *; lia));
    unfold Z.geb;
    destruct (Z.compare_spec (last_finger (vn s) + 1) hb) as [Heq|Hlt|Hgt].
  1,3,4,6: exists (last_finger (vn s)), (finger (vn s));
      rewrite withFingers_same; repeat split; auto; try lia.
  - lia.
  - destruct (betweenRightIncl H _ _ _) eqn:Hcov.
    + rewrite store_in_range by lia. simpl.
      set (next := last_finger (vn s) + 1) in *.
      specialize
        (IH (withFingers (<[Z.to_nat next := Some node]> (finger (vn s)))
                         next s)).
      simpl in IH. rewrite length_insert in IH. unfold Slice.len in *.
      rewrite length_insert in IH.
      destruct IH
        as (top & fing & Hrun & Htop & Hcovd & Hstop & Hfill & Hkeep & Hl);
        try lia.
      exists top, fing. split; [exact Hrun|]. split; [lia|].
      split.
      { intros j Hj. destruct (Z.eq_dec j next) as [->|Hne].
        - exact Hcov.
        - apply Hcovd. lia. }
      split; [exact Hstop|]. split.
      { intros j Hj. destruct (Z.eq_dec j next) as [->|Hne].
        - rewrite Hkeep by lia. apply list_lookup_insert_eq. lia.
        - apply Hfill. lia. }
      split; [|exact Hl].
      intros j Hj. rewrite Hkeep by lia. apply list_lookup_insert_ne. lia.
    + exists (last_finger (vn s)), (finger (vn s)).
      rewrite withFingers_same. repeat split; auto; try lia.
      intros _. unfold fingerCovered. rewrite Hcov. discriminate.
Qed.

(** One step of [fixFingerTable] whose resolve step gave [node]: the slots
    from the old cursor up to some [top] all hold [node], no other slot
    changes, and the cursor becomes [top + 1] modulo [HashBits]. *)
Lemma fixFingerTable_resolved_step
  (s s1 : State W) (node : Vnode) (rest : list (option Vnode)) :
  let hb := HashBits (config (ring (vn s))) in
  fingerInv (vn s) ->
  FindSuccessors H E 1 (fingerTarget H (vn s)) s
  = Done (Some node :: rest, None) s1 ->
  exists top fing,
    fixFingerTable H E s
    = Done None (withFingers fing ((top + 1) mod hb) s1)
    /\ vn s1 = vn s
    /\ last_finger (vn s) <= top < hb
    /\ (forall j, last_finger (vn s) < j <= top ->
                  fingerCovered H (vn s) hb node j)
    /\ (top + 1 < hb -> ~ fingerCovered H (vn s) hb node (top + 1))
    /\ (forall j, last_finger (vn s) <= j <= top ->
                  fing !! Z.to_nat j = Some (Some node))
    /\ (forall j : nat, ~ (last_finger (vn s) <= Z.of_nat j <= top) ->
                        fing !! j = finger (vn s) !! j)
    /\ length fing = length (finger (vn s)).
Proof.
  intros hb (Hlen & Hlf & Hmax) Hfind. fold hb in Hlen, Hlf, Hmax.
  assert (Hvn : vn s1 = vn s).
  { destruct (FindSuccessors_outcome 1 (fingerTarget H (vn s)) s)
      as [(res & err & s' & Heq & Hvn & _)|Hp]; [|congruence].
    rewrite Hfind in Heq. by injection Heq as _ _ ->. }
  destruct s1 as [v1 w1 tr1]. simpl in Hvn. subst v1.
  unfold fixFingerTable. run_go. unfold fingerTarget in Hfind.
  rewrite Hfind. simpl.
  rewrite store_in_range by lia. simpl.
  set (l := <[Z.to_nat (last_finger (vn s)) := Some node]> (finger (vn s))).
  assert (Hll : length l = length (finger (vn s)))
    by (subst l; apply length_insert).
  destruct (skipFingers_spec (length l) hb node
              (mkState (set_finger l (vn s)) w1 tr1))
    as (top & fing & Hrun & Htop & Hcov & Hstop & Hfill & Hkeep & Hl);
    simpl; unfold Slice.len in *; try lia.
  fold hb. rewrite Hrun. simpl in *.
  rewrite GoIntFacts.add_small
    by (unfold GoInt.in_range, GoInt.min_int, GoInt.max_int in *; lia).
  rewrite Hll in Hl.
  exists top, fing. split.
  { destruct (Z.eqb_spec (top + 1) hb) as [Heq|Hne].
    - rewrite Heq, Z_mod_same_full. reflexivity.
    - rewrite Z.mod_small by lia. reflexivity. }
  split; [reflexivity|]. split; [lia|]. split; [exact Hcov|].
  split; [exact Hstop|]. split; [|split; [|exact Hl]].
  - intros j Hj. destruct (Z.eq_dec j (last_finger (vn s))) as [->|Hne].
    + rewrite Hkeep by lia. subst l. apply list_lookup_insert_eq. lia.
    + apply Hfill. lia.
  - intros j Hj. rewrite Hkeep by lia. subst l.
    apply list_lookup_insert_ne. lia.
Qed.

(** Along a run of successful cycles the slots filled are those met when
    counting on from the first cursor modulo [HashBits], at least one per
    cycle, and a filled slot stays filled. *)
Lemma repairRun_progress k (s s' : State W) :
  repairRun H E k s s' ->
  fingerInv (vn s) ->
  let hb := HashBits (config (ring (vn s))) in
  fingerInv (vn s')
  /\ HashBits (config (ring (vn s'))) = hb
  /\ (forall j, filled s j -> filled s' j)
  /\ exists m,
       Z.of_nat k <= m
       /\ last_finger (vn s') = (last_finger (vn s) + m) mod hb
       /\ forall i, 0 <= i < m ->
                    filled s' ((last_finger (vn s) + i) mod hb).
Proof.
  induction 1 as [s|k s node rest s1 s2 s2' s3 Hfind Hfix Hsame Hrun IH];
    intros Hinv hb.
  - split; [exact Hinv|]. split; [reflexivity|]. split; [auto|].
    exists 0. split; [lia|]. split; [|intros; lia].
    destruct Hinv as (_ & Hlf & _). fold hb in Hlf.
    rewrite Z.add_0_r, Z.mod_small by lia. reflexivity.
  - destruct (fixFingerTable_resolved_step s s1 node rest Hinv Hfind)
      as (top & fing & Hfix' & Hvn & Htop & _ & _ & Hfill & Hkeep & Hl).
    fold hb in Hfix', Htop.
    rewrite Hfix in Hfix'. injection Hfix' as ->.
    destruct Hsame as (Hself & Hring & Hfing & Hcur). simpl in *.
    destruct Hinv as (Hlen & Hlf & Hmax). fold hb in Hlen, Hlf, Hmax.
    assert (Hnew : 0 <= (top + 1) mod hb < hb)
      by (apply Z.mod_pos_bound; lia).
    assert (Hinv2 : fingerInv (vn s2')).
    { unfold fingerInv. rewrite Hring, Hfing, Hcur, Hvn. fold hb.
      unfold Slice.len in *. rewrite Hl. auto. }
    destruct (IH Hinv2) as (Hinv3 & Hhb & Hmono & m & Hm & Hcur3 & Hvis).
    rewrite Hring, Hvn in Hhb, Hcur3, Hvis. fold hb in Hhb, Hcur3, Hvis.
    rewrite Hcur in Hcur3, Hvis.
    assert (Hstep : forall j, filled s j -> filled s2' j).
    { intros j [nd Hnd]. unfold filled. rewrite Hfing.
      destruct (decide (last_finger (vn s) <= Z.of_nat (Z.to_nat j) <= top))
        as [Hin|Hout].
      - exists node. rewrite <- (Nat2Z.id (Z.to_nat j)).
        apply Hfill. exact Hin.
      - exists nd. rewrite Hkeep by exact Hout. exact Hnd. }
    split; [exact Hinv3|]. split; [exact Hhb|]. split; [auto|].
    exists (top - last_finger (vn s) + 1 + m).
    split; [lia|]. split.
    + rewrite Hcur3, Z.add_mod_idemp_l by lia. f_equal. lia.
    + intros i Hi.
      destruct (Z.lt_ge_cases i (top - last_finger (vn s) + 1))
        as [Hlo|Hhi].
      * apply Hmono. rewrite Z.mod_small by lia.
        exists node. unfold filled. rewrite Hfing. apply Hfill. lia.
      * replace ((last_finger (vn s) + i) mod hb)
          with (((top + 1) mod hb
                 + (i - (top - last_finger (vn s) + 1))) mod hb).
        { apply Hvis. lia. }
        rewrite Z.add_mod_idemp_l by lia. f_equal. lia.
Qed.

(** After [HashBits] successful cycles, wherever the cursor started, every
    index [0 .. HashBits-1] has been visited. *)
Lemma repairRun_visits_all k (s s' : State W) :
  repairRun H E k s s' ->
  fingerInv (vn s) ->
  HashBits (config (ring (vn s))) <= Z.of_nat k ->
  forall j, 0 <= j < HashBits (config (ring (vn s))) -> filled s' j.
Proof.
  intros Hrun Hinv Hk j Hj.
  destruct (repairRun_progress k s s' Hrun Hinv)
    as (_ & _ & _ & m & Hm & _ & Hvis).
  set (hb := HashBits (config (ring (vn s)))) in *.
  pose proof (Z.mod_pos_bound (j - last_finger (vn s)) hb ltac:(lia)) as Hi.
  specialize (Hvis ((j - last_finger (vn s)) mod hb) ltac:(lia)).
  rewrite Z.add_mod_idemp_r in Hvis by lia.
  replace (last_finger (vn s) + (j - last_finger (vn s))) with j in Hvis
    by lia.
  rewrite Z.mod_small in Hvis by lia. exact Hvis.
Qed.

(** C9: after a step of [fixFingerTable] whose resolve step gave [node],
    the slot of the cursor and every following index whose target [node]
    covers, up to the first one it does not cover or the end of the table,
    hold [node]; no other slot changes; and the cursor becomes the index
    after the last slot written, or [0] when that was the last index, so it
    advances by at least one position modulo [HashBits].  Hence repeated
    successful cycles go round the table: after [HashBits] of them every
    index [0 .. HashBits-1] has been visited. *)
Theorem fixFingerTable_greedy_round_robin :
  (forall (s s1 : State W) (node : Vnode) (rest : list (option Vnode)),
     let hb := HashBits (config (ring (vn s))) in
     fingerInv (vn s) ->
     FindSuccessors H E 1 (fingerTarget H (vn s)) s
     = Done (Some node :: rest, None) s1 ->
     exists top fing,
       fixFingerTable H E s
       = Done None (withFingers fing ((top + 1) mod hb) s1)
       /\ vn s1 = vn s
       /\ last_finger (vn s) <= top < hb
       /\ (forall j, last_finger (vn s) < j <= top ->
                     fingerCovered H (vn s) hb node j)
       /\ (top + 1 < hb -> ~ fingerCovered H (vn s) hb node (top + 1))
       /\ (forall j, last_finger (vn s) <= j <= top ->
                     fing !! Z.to_nat j = Some (Some node))
       /\ (forall j : nat, ~ (last_finger (vn s) <= Z.of_nat j <= top) ->
                           fing !! j = finger (vn s) !! j)
       /\ length fing = length (finger (vn s)))
  /\
  (forall (k : nat) (s s' : State W),
     repairRun H E k s s' ->
     fingerInv (vn s) ->
     HashBits (config (ring (vn s))) <= Z.of_nat k ->
     forall j, 0 <= j < HashBits (config (ring (vn s))) -> filled s' j).
Proof.
  split.
  - exact fixFingerTable_resolved_step.
  - exact repairRun_visits_all.
Qed.

(** *** Every method returns or panics *)

Lemma returns_bind {A B} (m : M W A) (k : A -> M W B) :
  returns m -> (forall a, returns (k a)) -> returns (m ≫= k).
Proof.
  intros Hm Hk s. unfold mbind, M_bind.
  destruct (m s) as [a s'| |] eqn:Hms; [apply Hk|discriminate|].
  by destruct (Hm s).
Qed.

Lemma returns_ret {A} (a : A) : returns (W:=W) (mret a).
Proof. intros s. discriminate. Qed.

Lemma returns_getv : returns (W:=W) getv.
Proof. intros s. discriminate. Qed.

Lemma returns_setv f : returns (W:=W) (setv f).
Proof. intros s. discriminate. Qed.

Lemma returns_emit e : returns (W:=W) (emit e).
Proof. intros s. discriminate. Qed.

Lemma returns_panic {A} : returns (W:=W) (A:=A) panic.
Proof. intros s. discriminate. Qed.

Lemma returns_orPanic {A} (o : option A) : returns (W:=W) (orPanic o).
Proof. destruct o; intros s; discriminate. Qed.

Lemma returns_ask {A} e (f : W -> A * W) : returns (ask e f).
Proof. intros s. unfold ask. destruct (f (world s)). discriminate. Qed.

Lemma returns_consult {A} (f : W -> A * W) : returns (consult f).
Proof. intros s. unfold consult. destruct (f (world s)). discriminate. Qed.

Lemma returns_deferring {A} (d : M W unit) (body : M W A) :
  returns d -> returns body -> returns (deferring d body).
Proof.
  intros Hd Hb s. unfold deferring.
  destruct (body s) as [a s'|s'|] eqn:Hbs.
  - destruct (d s') eqn:Hds; try discriminate. by destruct (Hd s').
  - destruct (d s') eqn:Hds; try discriminate. by destruct (Hd s').
  - by destruct (Hb s).
Qed.

Ltac returns_step :=
  first
    [ apply returns_ret | apply returns_getv | apply returns_setv
    | apply returns_emit | apply returns_panic | apply returns_orPanic
    | apply returns_ask | apply returns_consult
    | apply returns_bind; [|intros ?]
    | match goal with
      | |- returns (match ?x with _ => _ end) => destruct x
      end ].

Ltac returns_tac := cbv zeta; repeat returns_step.

Lemma checkNewSuccessor_returns : returns (checkNewSuccessor H E).
Proof. unfold checkNewSuccessor. returns_tac. Qed.

Lemma spliceSuccessors_returns l idx :
  returns (W:=W) (spliceSuccessors l idx).
Proof.
  revert idx. induction l as [|[x|] l IH]; intros idx; simpl;
    returns_tac. apply IH.
Qed.

Lemma notifySuccessor_returns : returns (notifySuccessor E).
Proof.
  unfold notifySuccessor. returns_tac; apply spliceSuccessors_returns.
Qed.

Lemma checkPredecessor_returns : returns (checkPredecessor E).
Proof. unfold checkPredecessor. returns_tac. Qed.

Lemma schedule_returns : returns (schedule E).
Proof. unfold schedule. returns_tac. Qed.

Lemma FindSuccessors_returns n key : returns (FindSuccessors H E n key).
Proof.
  intros s.
  destruct (FindSuccessors_outcome n key s)
    as [(res & err & s' & Heq & _)|Hp]; congruence.
Qed.

Lemma skipFingers_fuel fuel hb node (s : State W) :
  GoInt.add (last_finger (vn s)) 1 < 0
  \/ Slice.len (finger (vn s)) - GoInt.add (last_finger (vn s)) 1
     <= Z.of_nat fuel ->
  skipFingers H fuel hb node s <> OutOfFuel.
Proof.
  revert s. induction fuel as [|fuel IH]; intros s Hfuel;
    rewrite skipFingers_unfold; run_go;
    set (next := GoInt.add (last_finger (vn s)) 1) in *;
    (destruct (next >=? hb); [discriminate|]);
    (destruct (betweenRightIncl H _ _ _); [|discriminate]);
    unfold Slice.store;
    destruct (Z.leb_spec 0 next); simpl; try discriminate;
    destruct (Z.ltb_spec next (Slice.len (finger (vn s)))); simpl;
    try discriminate.
  - lia.
  - apply IH. simpl. unfold Slice.len in *. rewrite length_insert.
    pose proof (GoIntFacts.wrap_range (last_finger (vn s) + 1)) as Hr.
    fold (GoInt.add (last_finger (vn s)) 1) in Hr. fold next in Hr.
    unfold GoInt.in_range, GoInt.min_int, GoInt.max_int in Hr.
    destruct (Z.eq_dec next (2 ^ 63 - 1)) as [Hmax|Hsmall].
    + left. rewrite Hmax. vm_compute. reflexivity.
    + right. rewrite GoIntFacts.add_small
        by (unfold GoInt.in_range, GoInt.min_int, GoInt.max_int; lia).
      lia.
Qed.

Lemma fixFingerTable_returns : returns (fixFingerTable H E).
Proof.
  unfold fixFingerTable. cbv zeta.
  apply returns_bind; [apply returns_getv|intros v].
  apply returns_bind; [apply FindSuccessors_returns|intros [nodes err]].
  apply returns_bind; [apply returns_orPanic|intros node].
  destruct node as [nd|]; [|apply returns_ret].
  destruct err; [apply returns_ret|].
  apply returns_bind; [apply returns_getv|intros v'].
  apply returns_bind; [apply returns_orPanic|intros l].
  intros s. unfold mbind, M_bind at 1, setv at 1.
  assert (Hskip : forall fuel' (s' : State W),
             finger (vn s') = l -> fuel' = length l ->
             skipFingers H fuel' (HashBits (config (ring v))) nd s'
             <> OutOfFuel).
  { intros fuel' s' Hf ->. apply skipFingers_fuel. rewrite Hf.
    unfold Slice.len. lia. }
  unfold M_bind at 1.
  destruct (skipFingers H (length l) (HashBits (config (ring v))) nd _)
    as [[] s'|s'|] eqn:Hrun; [|discriminate|].
  - clear Hrun. run_go. destruct (_ =? _); discriminate.
  - exfalso. eapply Hskip; [| |exact Hrun]; reflexivity.
Qed.

Lemma logged_returns format step :
  returns step -> returns (W:=W) (logged format step).
Proof. intros Hs. unfold logged. returns_tac. exact Hs. Qed.

Lemma cycle_returns :
  returns (logged logNewSuccessor (checkNewSuccessor H E);;
           logged logNotify (notifySuccessor E);;
           logged logFinger (fixFingerTable H E);;
           logged logPredecessor (checkPredecessor E);;
           now ← consult (timeNow E);
           setv (set_stabilized now)).
Proof.
  apply returns_bind;
    [apply logged_returns, checkNewSuccessor_returns|intros _].
  apply returns_bind;
    [apply logged_returns, notifySuccessor_returns|intros _].
  apply returns_bind;
    [apply logged_returns, fixFingerTable_returns|intros _].
  apply returns_bind;
    [apply logged_returns, checkPredecessor_returns|intros _].
  apply returns_bind; [apply returns_consult|intros now].
  apply returns_setv.
Qed.

Theorem stabilize_returns : returns (stabilize H E).
Proof.
  unfold stabilize.
  apply returns_bind; [apply returns_setv|intros _].
  apply returns_bind; [apply returns_getv|intros v].
  destruct (shutdown (ring v)); [apply returns_ret|].
  apply returns_deferring; [apply schedule_returns|apply cycle_returns].
Qed.

Lemma logged_done format step (s s1 : State W) err :
  step s = Done err s1 ->
  logged format step s = Done tt (noteError format err s1).
Proof.
  intros Hs. unfold logged. run_go. rewrite Hs. by destruct err.
Qed.

Lemma logged_panicked format step (s s1 : State W) :
  step s = Panicked s1 -> logged format step s = Panicked s1.
Proof. intros Hs. unfold logged. run_go. by rewrite Hs. Qed.

(** *** stabilize *)

Lemma stabilize_unfold (s : State W) :
  stabilize H E s =
  let s0 := mkState (set_timer None (vn s)) (world s) (trace s) in
  if shutdown (ring (vn s)) then Done tt s0
  else
    deferring (schedule E)
      (logged logNewSuccessor (checkNewSuccessor H E);;
       logged logNotify (notifySuccessor E);;
       logged logFinger (fixFingerTable H E);;
       logged logPredecessor (checkPredecessor E);;
       now ← consult (timeNow E);
       setv (set_stabilized now)) s0.
Proof.
  unfold stabilize.
  unfold mbind at 1 2, M_bind at 1 2, setv at 1, getv at 1.
  cbn [vn world trace].
  change (ring (set_timer None (vn s))) with (ring (vn s)).
  by destruct (shutdown (ring (vn s))).
Qed.

Lemma stabilize_shutdown (s : State W) :
  shutdown (ring (vn s)) = true ->
  stabilize H E s
  = Done tt (mkState (set_timer None (vn s)) (world s) (trace s)).
Proof. intros Hsd. rewrite stabilize_unfold. by rewrite Hsd. Qed.

Lemma schedule_arms (s : State W) :
  exists d w,
    schedule E s
    = Done tt (mkState (set_timer (Some d) (vn s)) w
                       (trace s ++ [TimerAfterFunc d])).
Proof.
  unfold schedule. run_go.
  destruct (randStabilize E (config (ring (vn s))) (world s)) as [d w].
  by exists d, w.
Qed.

(** X4: whatever the steps do, a cycle that is not shut down ends with the
    next timer armed: the deferred [schedule] runs when the steps return
    and when one of them panics. *)
Theorem stabilize_always_reschedules (s : State W) :
  shutdown (ring (vn s)) = false ->
  exists s' d,
    (stabilize H E s = Done tt s' \/ stabilize H E s = Panicked s')
    /\ timer (vn s') = Some d
    /\ last (trace s') = Some (TimerAfterFunc d).
Proof.
  intros Hsd. rewrite stabilize_unfold, Hsd. cbv zeta. unfold deferring.
  match goal with
  | |- context [match ?body ?s0 with _ => _ end] =>
      destruct (body s0) as [[] s1|s1|] eqn:Hbody
  end.
  - destruct (schedule_arms s1) as (d & w & ->).
    eexists _, d. split; [by left|]. split; [reflexivity|apply last_snoc].
  - destruct (schedule_arms s1) as (d & w & ->).
    eexists _, d. split; [by right|]. split; [reflexivity|apply last_snoc].
  - by destruct (cycle_returns _ Hbody).
Qed.

(** X5: a cycle in which every step returns: the four steps run in order,
    each on the state the one before left, each error is logged, the
    instant is recorded and the next cycle is armed. *)
Theorem stabilize_cycle
  (s s1 s2 s3 s4 : State W) (e1 e2 e3 e4 : option error)
  (now d : Z) (w5 w6 : W) :
  shutdown (ring (vn s)) = false ->
  checkNewSuccessor H E (mkState (set_timer None (vn s)) (world s) (trace s))
  = Done e1 s1 ->
  notifySuccessor E (noteError logNewSuccessor e1 s1) = Done e2 s2 ->
  fixFingerTable H E (noteError logNotify e2 s2) = Done e3 s3 ->
  checkPredecessor E (noteError logFinger e3 s3) = Done e4 s4 ->
  let s5 := noteError logPredecessor e4 s4 in
  timeNow E (world s5) = (now, w5) ->
  randStabilize E (config (ring (vn s5))) w5 = (d, w6) ->
  stabilize H E s
  = Done tt (mkState (set_timer (Some d) (set_stabilized now (vn s5))) w6
                     (trace s5 ++ [TimerAfterFunc d])).
Proof.
  intros Hsd H1 H2 H3 H4 s5 Hnow Hrand. subst s5.
  rewrite stabilize_unfold, Hsd. cbv zeta. unfold deferring.
  unfold mbind at 1, M_bind at 1.
  rewrite (logged_done _ _ _ _ _ H1).
  unfold mbind at 1, M_bind at 1.
  rewrite (logged_done _ _ _ _ _ H2).
  unfold mbind at 1, M_bind at 1.
  rewrite (logged_done _ _ _ _ _ H3).
  unfold mbind at 1, M_bind at 1.
  rewrite (logged_done _ _ _ _ _ H4).
  unfold schedule. run_go. rewrite Hnow. simpl. rewrite Hrand.
  reflexivity.
Qed.

(** C8 (what the code does): when [fixFingerTable] panics, the deferred
    [schedule] still arms the next timer, but the predecessor check does not
    run and the instant is not recorded: the panic leaves [stabilize]. *)
Theorem stabilize_aborts_when_finger_fix_panics
  (s s1 s2 s3 : State W) (e1 e2 : option error) (d : Z) (w4 : W) :
  shutdown (ring (vn s)) = false ->
  checkNewSuccessor H E (mkState (set_timer None (vn s)) (world s) (trace s))
  = Done e1 s1 ->
  notifySuccessor E (noteError logNewSuccessor e1 s1) = Done e2 s2 ->
  fixFingerTable H E (noteError logNotify e2 s2) = Panicked s3 ->
  randStabilize E (config (ring (vn s3))) (world s3) = (d, w4) ->
  stabilize H E s
  = Panicked (mkState (set_timer (Some d) (vn s3)) w4
                      (trace s3 ++ [TimerAfterFunc d])).
Proof.
  intros Hsd H1 H2 H3 Hrand.
  rewrite stabilize_unfold, Hsd. cbv zeta. unfold deferring.
  unfold mbind at 1, M_bind at 1.
  rewrite (logged_done _ _ _ _ _ H1).
  unfold mbind at 1, M_bind at 1.
  rewrite (logged_done _ _ _ _ _ H2).
  unfold mbind at 1, M_bind at 1.
  rewrite (logged_panicked _ _ _ _ H3).
  unfold schedule. run_go. rewrite Hrand.
  reflexivity.
Qed.


(** ** The other paths of the methods *)

(** A step that has come to its end: the state it leaves, by return or by
    panic. *)
Ltac leaves :=
  let Hfin := fresh "Hfin" in
  intros Hfin; cbn in Hfin; injection Hfin as <-; cbn [vn world trace].

(** *** checkNewSuccessor, Notify, GetPredecessor, checkPredecessor *)

(** X8: when the GetPredecessor RPC to [successors[0]] succeeds and names
    no node, or a node that is not strictly between the vnode and
    [successors[0]], [checkNewSuccessor] returns no error, probes nobody
    and leaves the vnode as it was. *)
Theorem checkNewSuccessor_no_closer_node
  (v : localVnode) (w w1 : W) (tr : list Event)
  (succ cand : option Vnode) (rest : list (option Vnode)) :
  successors v = succ :: rest ->
  tGetPredecessor E succ w = ((cand, None), w1) ->
  match cand, succ with
  | None, _ => True
  | Some c, Some s0 => between H (Id (self v)) (Id s0) (Id c) = false
  | Some _, None => False
  end ->
  checkNewSuccessor H E (mkState v w tr)
  = Done None (mkState v w1 (tr ++ [RpcGetPredecessor succ])).
Proof.
  intros Hs Hgp Hcand. unfold checkNewSuccessor. run_go.
  rewrite Hs. simpl. rewrite Hgp. simpl.
  destruct cand as [c|]; [|reflexivity].
  destruct succ as [s0|]; [|contradiction].
  simpl. by rewrite Hcand.
Qed.

(** X9: after [Notify(cand)] the vnode has a predecessor, and
    [GetPredecessor] reports it without error and without changing the
    state: it is [cand] when the notification was accepted, and the
    predecessor known before otherwise. *)
Theorem Notify_then_GetPredecessor
  (v : localVnode) (w : W) (tr : list Event) (cand : Vnode) :
  exists s1 p,
    Notify H (Some cand) (mkState v w tr) = Done (successors v, None) s1
    /\ GetPredecessor s1 = Done (Some p, None) s1
    /\ (accepts H v cand = true -> p = cand)
    /\ (accepts H v cand = false -> predecessor v = Some p).
Proof.
  unfold Notify, GetPredecessor, accepts. run_go.
  destruct (predecessor v) as [p|] eqn:Hp; simpl.
  - destruct (between H (Id p) (Id (self v)) (Id cand)); simpl.
    + eexists _, cand. split; [reflexivity|]. split; [reflexivity|].
      split; [auto|discriminate].
    + eexists _, p. split; [reflexivity|].
      split; [simpl; by rewrite Hp|]. split; [discriminate|auto].
  - eexists _, cand. split; [reflexivity|]. split; [reflexivity|].
    split; [auto|discriminate].
Qed.

(** X10: a notification delivered twice does what it did once: the second
    [Notify] of the same candidate gives the same answer and leaves the
    state of the first. *)
Theorem Notify_idempotent
  (s s1 : State W) (cand : Vnode) (r : list (option Vnode) * option error) :
  Notify H (Some cand) s = Done r s1 ->
  Notify H (Some cand) s1 = Done r s1.
Proof.
  destruct s as [v w tr]. unfold Notify. run_go.
  destruct (predecessor v) as [p|] eqn:Hp; simpl.
  - destruct (between H (Id p) (Id (self v)) (Id cand)) eqn:Hb; simpl;
      intros Heq; injection Heq as <- <-; simpl.
    + destruct (between H (Id cand) (Id (self v)) (Id cand)); reflexivity.
    + rewrite Hp. simpl. rewrite Hb. reflexivity.
  - intros Heq; injection Heq as <- <-; simpl.
    destruct (between H (Id cand) (Id (self v)) (Id cand)); reflexivity.
Qed.

(** X12: once [checkPredecessor] has found the predecessor dead (the probe
    says "not alive" without error), the next [Notify] is accepted
    whatever its candidate, which becomes the predecessor. *)
Theorem checkPredecessor_then_Notify
  (v : localVnode) (w w' : W) (tr : list Event) (p : Vnode) :
  predecessor v = Some p ->
  tPing E (Some p) w = ((false, None), w') ->
  exists s1,
    checkPredecessor E (mkState v w tr) = Done None s1
    /\ forall cand, exists s2,
         Notify H (Some cand) s1 = Done (successors v, None) s2
         /\ predecessor (vn s2) = Some cand.
Proof.
  intros Hp Hping. unfold checkPredecessor. run_go.
  rewrite Hp. simpl. rewrite Hping. simpl.
  eexists. split; [reflexivity|].
  intros cand. unfold Notify. run_go. simpl. eexists. split; reflexivity.
Qed.

(** *** notifySuccessor *)



(** X13: when the Notify RPC to [successors[0]] fails, [notifySuccessor]
    returns the RPC's error and leaves the vnode as it was. *)
Theorem notifySuccessor_rpc_error
  (v : localVnode) (w w1 : W) (tr : list Event) (succ : option Vnode)
  (rest res : list (option Vnode)) (e : error) :
  successors v = succ :: rest ->
  tNotify E succ (self v) w = ((res, Some e), w1) ->
  notifySuccessor E (mkState v w tr)
  = Done (Some e) (mkState v w1 (tr ++ [RpcNotify succ (self v)])).
Proof.
  intros Hs Hrpc. unfold notifySuccessor. run_go.
  rewrite Hs. simpl. rewrite Hrpc. reflexivity.
Qed.


(** *** fixFingerTable *)

(** X15: when the resolve step answers without error a list whose first
    entry is nil, [fixFingerTable] returns no error and changes nothing:
    the finger table and its cursor stay as they were. *)
Theorem fixFingerTable_nil_answer
  (s s1 : State W) (rest : list (option Vnode)) :
  FindSuccessors H E 1 (fingerTarget H (vn s)) s
  = Done (None :: rest, None) s1 ->
  fixFingerTable H E s = Done None s1 /\ vn s1 = vn s.
Proof.
  intros Hfind. split.
  - unfold fixFingerTable. run_go. unfold fingerTarget in Hfind.
    by rewrite Hfind.
  - destruct (FindSuccessors_outcome 1 (fingerTarget H (vn s)) s)
      as [(res & err & s' & Heq & Hvn & _)|Hp]; [|congruence].
    rewrite Hfind in Heq. by injection Heq as _ _ ->.
Qed.

(** X16: when the resolve step answers an empty list without error, as a
    remote node may, [fixFingerTable] panics on [nodes[0]], with the vnode
    as it was. *)
Theorem fixFingerTable_empty_answer_panics (s s1 : State W) :
  FindSuccessors H E 1 (fingerTarget H (vn s)) s = Done ([], None) s1 ->
  fixFingerTable H E s = Panicked s1 /\ vn s1 = vn s.
Proof.
  intros Hfind. split.
  - unfold fixFingerTable. run_go. unfold fingerTarget in Hfind.
    by rewrite Hfind.
  - destruct (FindSuccessors_outcome 1 (fingerTarget H (vn s)) s)
      as [(res & err & s' & Heq & Hvn & _)|Hp]; [|congruence].
    rewrite Hfind in Heq. by injection Heq as _ _ ->.
Qed.

(** *** FindSuccessors *)

Lemma lookupsSent_app tr tr' :
  lookupsSent (tr ++ tr') = lookupsSent tr ++ lookupsSent tr'.
Proof. unfold lookupsSent. apply flat_map_app. Qed.

(** The routing loop only adds to the trace. *)
Lemma tryPreceding_extends n key yields (s : State W) :
  exists r s' tr',
    tryPreceding E n key yields s = Done r s'
    /\ trace s' = trace s ++ tr'.
Proof.
  revert s. induction yields as [|[c [e|]] rest IH]; intros s; simpl.
  - exists ([], Some ErrExhausted), s, []. by rewrite app_nil_r.
  - exists ([], Some e), s, []. by rewrite app_nil_r.
  - run_go.
    destruct (tFindSuccessors E (Some c) n key (world s))
      as [[res [e|]] w1]; simpl.
    + match goal with |- context [tryPreceding E n key rest ?s1] =>
        destruct (IH s1) as (r & s' & tr' & Heq & Htr) end.
      exists r, s', ([RpcFindSuccessors (Some c) n key;
                      LogPrintf "[ERR] Failed to contact %s. Got %s"
                                [ArgVnode c; ArgError (Some e)]] ++ tr').
      split; [exact Heq|]. rewrite Htr. simpl.
      by rewrite <- !app_assoc.
    + eexists _, _, _. split; reflexivity.
Qed.

(** X17: a lookup never writes to the vnode.  When it returns, the vnode
    is as it was, the trace has only grown, and an error comes with a nil
    list; when it panics, it does so before any RPC, with the state as it
    was. *)
Theorem FindSuccessors_reads_only n key (s : State W) :
  (exists res err s' tr',
      FindSuccessors H E n key s = Done (res, err) s'
      /\ vn s' = vn s
      /\ trace s' = trace s ++ tr'
      /\ (err <> None -> res = []))
  \/ FindSuccessors H E n key s = Panicked s.
Proof.
  destruct (FindSuccessors_outcome n key s)
    as [(res & err & s' & Heq & Hvn & Hnil)|Hp]; [left|by right].
  exists res, err, s'.
  assert (exists tr', trace s' = trace s ++ tr') as [tr' Htr].
  { revert Heq. unfold FindSuccessors. run_go.
    set (bound := GoInt.max _ 1).
    destruct (scanSuccessors_pure bound key (successors (vn s)) 0 s)
      as [[r Hr]|Hr]; rewrite Hr; [|discriminate].
    destruct r as [i|].
    - destruct (Slice.slice _ _ _); simpl; [|discriminate].
      intros Heq. injection Heq as _ _ <-. exists []. by rewrite app_nil_r.
    - destruct (tryPreceding_extends n key (cpYields H (vn s) key) s)
        as (r & s2 & tr' & Heq2 & Htr).
      intros Heq. rewrite Heq in Heq2. injection Heq2 as _ <-. eauto. }
  exists tr'. auto.
Qed.

(** X18: a lookup for more nodes than the successor list has slots, whose
    key the first successor covers, panics on the slice
    [successors[0 : n]], before any RPC. *)
Theorem FindSuccessors_count_beyond_list
  (s : State W) (n : Z) (key : Identifier) (x : Vnode)
  (rest : list (option Vnode)) :
  successors (vn s) = Some x :: rest ->
  covers H (vn s) key x ->
  Slice.len (successors (vn s)) < n <= GoInt.max_int ->
  FindSuccessors H E n key s = Panicked s.
Proof.
  intros Hs Hcov Hn. unfold FindSuccessors. run_go.
  rewrite scanSuccessors_unfold.
  set (known := knownSuccessors (successors (vn s)) 0 0).
  pose proof (GoIntFacts.max_ge_r (GoInt.sub known n) 1) as Hb.
  destruct (Z.ltb_spec 0 (GoInt.max (GoInt.sub known n) 1)); [|lia].
  rewrite Hs. run_go. unfold covers in Hcov. rewrite Hcov.
  unfold GoInt.add. rewrite Z.add_0_l, GoIntFacts.wrap_in_range
    by (unfold GoInt.in_range, GoInt.min_int, GoInt.max_int in *;
        unfold Slice.len in Hn; lia).
  unfold Slice.slice. rewrite <- Hs.
  destruct (Z.leb_spec n (Slice.len (successors (vn s)))); [lia|].
  by rewrite andb_false_r.
Qed.

Lemma knownSuccessors_bounds (l : list (option Vnode)) i acc :
  acc <= i ->
  acc <= knownSuccessors l i acc <= i + Slice.len l.
Proof.
  revert i acc. unfold Slice.len.
  induction l as [|[x|] l IH]; intros i acc Hacc; simpl knownSuccessors;
    simpl length.
  - lia.
  - specialize (IH (i + 1) (i + 1) ltac:(lia)). lia.
  - specialize (IH (i + 1) acc ltac:(lia)). lia.
Qed.

Lemma knownSuccessors_present (l : list (option Vnode)) i acc j x :
  acc <= i ->
  l !! j = Some (Some x) ->
  i + Z.of_nat j + 1 <= knownSuccessors l i acc.
Proof.
  revert i acc j. induction l as [|y l IH]; intros i acc j Hacc Hj.
  - discriminate.
  - destruct j as [|j]; simpl in Hj.
    + injection Hj as ->. simpl.
      pose proof (knownSuccessors_bounds l (i + 1) (i + 1) ltac:(lia)). lia.
    + destruct y; simpl.
      * specialize (IH (i + 1) (i + 1) j ltac:(lia) Hj). lia.
      * specialize (IH (i + 1) acc j ltac:(lia) Hj). lia.
Qed.

(** A scan that finds nothing has read a present entry at every index
    below its bound. *)
Lemma scanSuccessors_miss bound key rest i (s s' : State W) :
  scanSuccessors H bound key rest i s = Done None s' ->
  forall j : nat, i + Z.of_nat j < bound ->
                  exists x, rest !! j = Some (Some x).
Proof.
  revert i. induction rest as [|[x|] rest IH]; intros i;
    rewrite scanSuccessors_unfold; destruct (Z.ltb_spec i bound);
    run_go; try discriminate; try (intros _ j Hj; lia).
  destruct (betweenRightIncl H _ _ _); [discriminate|].
  intros Hscan [|j] Hj; [by exists x|].
  apply (IH (i + 1) Hscan). lia.
Qed.

(** A scan that stops does so at an index of the list. *)
Lemma scanSuccessors_hit bound key rest i j (s s' : State W) :
  scanSuccessors H bound key rest i s = Done (Some j) s' ->
  i <= j < i + Slice.len rest.
Proof.
  revert i. unfold Slice.len.
  induction rest as [|[x|] rest IH]; intros i;
    rewrite scanSuccessors_unfold; destruct (Z.ltb_spec i bound);
    run_go; try discriminate.
  destruct (betweenRightIncl H _ _ _).
  - intros Heq. injection Heq as <- _. simpl length. lia.
  - intros Hscan. specialize (IH (i + 1) Hscan). simpl length. lia.
Qed.

(** X19: a lookup for a negative number of nodes panics before any RPC,
    whatever the successor list: the scan bound [known - n] then lies
    beyond the known successors, so the scan either stops at a covering
    successor, where the slice [successors[i : i+n]] has its bounds in the
    wrong order, or runs into a nil entry or off the list. *)
Theorem FindSuccessors_negative_count_panics
  (s : State W) (n : Z) (key : Identifier) :
  GoInt.min_int <= n < 0 ->
  Slice.len (successors (vn s)) - n <= GoInt.max_int ->
  FindSuccessors H E n key s = Panicked s.
Proof.
  intros Hn Hlen. unfold GoInt.min_int, GoInt.max_int in *.
  unfold FindSuccessors. run_go.
  pose proof (knownSuccessors_bounds (successors (vn s)) 0 0 ltac:(lia))
    as Hknown.
  set (known := knownSuccessors (successors (vn s)) 0 0) in *.
  rewrite GoIntFacts.sub_small
    by (unfold GoInt.in_range, GoInt.min_int, GoInt.max_int; lia).
  rewrite GoIntFacts.max_spec, Z.max_l by lia.
  destruct (scanSuccessors_pure (known - n) key (successors (vn s)) 0 s)
    as [[[j|] Hr]|Hr]; rewrite Hr; [| |reflexivity].
  - apply scanSuccessors_hit in Hr as Hj.
    rewrite GoIntFacts.add_small
      by (unfold GoInt.in_range, GoInt.min_int, GoInt.max_int; lia).
    unfold Slice.slice.
    destruct (Z.leb_spec j (j + n)); [lia|].
    by rewrite andb_false_r.
  - exfalso.
    destruct (scanSuccessors_miss _ _ _ _ _ _ Hr (Z.to_nat (known - n - 1))
                ltac:(lia)) as [x Hx].
    pose proof (knownSuccessors_present _ 0 0 _ _ ltac:(lia) Hx) as Hge.
    fold known in Hge. lia.
Qed.

(** A lookup that no present successor covers is decided by the routing
    loop alone. *)
Lemma FindSuccessors_routes
  (s : State W) (n : Z) (key : Identifier) (live : list Vnode) (k : nat) :
  successors (vn s) = (Some <$> live) ++ replicate k None ->
  Slice.len live <= GoInt.max_int ->
  1 <= n <= Slice.len live ->
  Forall (fun y => ~ covers H (vn s) key y) live ->
  FindSuccessors H E n key s
  = tryPreceding E n key (cpYields H (vn s) key) s.
Proof.
  intros Hsucc Hmax Hn Hnone.
  unfold GoInt.max_int in Hmax. unfold Slice.len in *.
  unfold FindSuccessors. run_go. rewrite Hsucc.
  rewrite knownSuccessors_live.
  assert (Hknown :
            match live with [] => 0 | _ :: _ => 0 + Slice.len live end
            = Slice.len live) by (destruct live; reflexivity).
  rewrite Hknown. unfold Slice.len.
  rewrite GoIntFacts.sub_small
    by (unfold GoInt.in_range, GoInt.min_int, GoInt.max_int; lia).
  rewrite GoIntFacts.max_spec.
  rewrite scanSuccessors_live by (unfold Slice.len; lia).
  destruct (list_find _ _) as [[i x]|] eqn:Hfind; [|reflexivity].
  apply list_find_Some in Hfind as (Hi & Hcov & _).
  apply lookup_take_Some in Hi as [Hi _].
  rewrite Forall_forall in Hnone.
  destruct (Hnone x); [|exact Hcov].
  apply list_elem_of_lookup. by exists i.
Qed.

Lemma tryPreceding_first_reachable n key res
  (dead : list Vnode) (c : Vnode) (post : list Vnode) (s : State W) :
  (forall x, In x dead -> forall w,
       exists r e w', tFindSuccessors E (Some x) n key w = ((r, Some e), w')) ->
  (forall w, exists w',
       tFindSuccessors E (Some c) n key w = ((res, None), w')) ->
  exists s',
    tryPreceding E n key ((fun x => (x, None)) <$> (dead ++ c :: post)) s
    = Done (res, None) s'
    /\ vn s' = vn s
    /\ lookupsSent (trace s')
       = lookupsSent (trace s) ++ (Some <$> (dead ++ [c])).
Proof.
  intros Hdead Hc. revert s.
  induction dead as [|x dead IH]; intros s; simpl; run_go.
  - destruct (Hc (world s)) as [w' ->]. simpl.
    eexists. split; [reflexivity|]. split; [reflexivity|].
    simpl. by rewrite lookupsSent_app.
  - destruct (Hdead x (or_introl eq_refl) (world s)) as (r & e & w' & ->).
    simpl.
    match goal with |- context [tryPreceding E n key _ ?s1] =>
      destruct (IH (fun y Hy => Hdead y (or_intror Hy)) s1)
        as (s' & Heq & Hvn & Htr) end.
    exists s'. split; [exact Heq|]. split; [exact Hvn|].
    rewrite Htr. simpl. rewrite !lookupsSent_app. simpl.
    by rewrite app_nil_r, <- app_assoc.
Qed.

Lemma tryPreceding_all_unreachable n key (dead : list Vnode) (s : State W) :
  (forall x, In x dead -> forall w,
       exists r e w', tFindSuccessors E (Some x) n key w = ((r, Some e), w')) ->
  exists s',
    tryPreceding E n key ((fun x => (x, None)) <$> dead) s
    = Done ([], Some ErrExhausted) s'
    /\ vn s' = vn s
    /\ lookupsSent (trace s') = lookupsSent (trace s) ++ (Some <$> dead).
Proof.
  intros Hdead. revert s.
  induction dead as [|x dead IH]; intros s; simpl; run_go.
  - exists s. by rewrite app_nil_r.
  - destruct (Hdead x (or_introl eq_refl) (world s)) as (r & e & w' & ->).
    simpl.
    match goal with |- context [tryPreceding E n key _ ?s1] =>
      destruct (IH (fun y Hy => Hdead y (or_intror Hy)) s1)
        as (s' & Heq & Hvn & Htr) end.
    exists s'. split; [exact Heq|]. split; [exact Hvn|].
    rewrite Htr. simpl. rewrite !lookupsSent_app. simpl.
    by rewrite app_nil_r, <- app_assoc.
Qed.

(** X20: when no present successor covers the key, the lookup asks the
    candidates in the order in which the iterator yields them and stops at
    the first that answers: its answer is returned as it is, the
    candidates before it were each asked once, those after it not at all,
    and the vnode is unchanged. *)
Theorem FindSuccessors_routes_to_first_reachable
  (s : State W) (n : Z) (key : Identifier) (live : list Vnode) (k : nat)
  (dead : list Vnode) (c : Vnode) (post : list Vnode)
  (res : list (option Vnode)) :
  successors (vn s) = (Some <$> live) ++ replicate k None ->
  Slice.len live <= GoInt.max_int ->
  1 <= n <= Slice.len live ->
  Forall (fun y => ~ covers H (vn s) key y) live ->
  cpYields H (vn s) key = (fun x => (x, None)) <$> (dead ++ c :: post) ->
  (forall x, In x dead -> forall w,
       exists r e w', tFindSuccessors E (Some x) n key w = ((r, Some e), w')) ->
  (forall w, exists w',
       tFindSuccessors E (Some c) n key w = ((res, None), w')) ->
  exists s',
    FindSuccessors H E n key s = Done (res, None) s'
    /\ vn s' = vn s
    /\ lookupsSent (trace s')
       = lookupsSent (trace s) ++ (Some <$> (dead ++ [c])).
Proof.
  intros Hsucc Hmax Hn Hnone Hyields Hdead Hc.
  rewrite (FindSuccessors_routes s n key live k Hsucc Hmax Hn Hnone).
  rewrite Hyields. by apply tryPreceding_first_reachable.
Qed.

(** X21: when no present successor covers the key and none of the
    candidates that the iterator yields answers, the lookup has asked each
    of them once, in order, and fails with the exhaustion error and a nil
    list; the vnode is unchanged. *)
Theorem FindSuccessors_exhausts_unreachable
  (s : State W) (n : Z) (key : Identifier) (live : list Vnode) (k : nat)
  (dead : list Vnode) :
  successors (vn s) = (Some <$> live) ++ replicate k None ->
  Slice.len live <= GoInt.max_int ->
  1 <= n <= Slice.len live ->
  Forall (fun y => ~ covers H (vn s) key y) live ->
  cpYields H (vn s) key = (fun x => (x, None)) <$> dead ->
  (forall x, In x dead -> forall w,
       exists r e w', tFindSuccessors E (Some x) n key w = ((r, Some e), w')) ->
  exists s',
    FindSuccessors H E n key s = Done ([], Some ErrExhausted) s'
    /\ vn s' = vn s
    /\ lookupsSent (trace s') = lookupsSent (trace s) ++ (Some <$> dead).
Proof.
  intros Hsucc Hmax Hn Hnone Hyields Hdead.
  rewrite (FindSuccessors_routes s n key live k Hsucc Hmax Hn Hnone).
  rewrite Hyields. by apply tryPreceding_all_unreachable.
Qed.

(** A lookup on a vnode whose first successor slot is nil or missing
    panics on the first read of the scan. *)
Lemma FindSuccessors_nil_head_panics n key (s : State W) :
  hd None (successors (vn s)) = None ->
  FindSuccessors H E n key s = Panicked s.
Proof.
  intros Hhd. unfold FindSuccessors. run_go.
  rewrite scanSuccessors_unfold.
  set (known := knownSuccessors (successors (vn s)) 0 0).
  pose proof (GoIntFacts.max_ge_r (GoInt.sub known n) 1) as Hb.
  destruct (Z.ltb_spec 0 (GoInt.max (GoInt.sub known n) 1)); [|lia].
  destruct (successors (vn s)) as [|[x|] l]; try discriminate;
    reflexivity.
Qed.

Lemma fixFingerTable_nil_head_panics (s : State W) :
  hd None (successors (vn s)) = None ->
  fixFingerTable H E s = Panicked s.
Proof.
  intros Hhd. unfold fixFingerTable. run_go.
  by rewrite FindSuccessors_nil_head_panics.
Qed.

(** *** What every step of the cycle keeps *)

Lemma store_length {A} (l l' : list A) i x :
  Slice.store l i x = Some l' -> length l' = length l.
Proof.
  unfold Slice.store. destruct (_ && _); [|discriminate].
  intros [= <-]. apply length_insert.
Qed.

Lemma copy_down_length {A} (l : list A) :
  l <> [] -> length (Slice.copy_down l) = length l.
Proof.
  intros Hl. unfold Slice.copy_down.
  rewrite length_app, !length_drop. destruct l; [done|]. simpl. lia.
Qed.

Lemma fingerInv_shape (v v' : localVnode) :
  shape v' = shape v ->
  0 <= last_finger v' < HashBits (config (ring v)) ->
  fingerInv v -> fingerInv v'.
Proof.
  unfold shape, fingerInv, Slice.len.
  intros [= Hself Hring Hsucc Hfing] Hlf (Hlen & _ & Hmax).
  rewrite Hring, Hfing. auto.
Qed.

Lemma keeps_bind {A B} (m : M W A) (k : A -> M W B) :
  keeps m -> (forall a, keeps (k a)) -> keeps (m ≫= k).
Proof.
  intros Hm Hk s s'. unfold mbind, M_bind.
  destruct (m s) as [a s1|s1|] eqn:Hms; [|leaves|discriminate].
  - intros Hfin. destruct (Hm s s1) as [Hs1 Hi1]; [by rewrite Hms|].
    destruct (Hk a s1 s' Hfin) as [Hs2 Hi2].
    split; [congruence|auto].
  - apply Hm. by rewrite Hms.
Qed.

(** A step that touches neither the shape nor the cursor. *)
Lemma keeps_frame {A} (m : M W A) :
  (forall s s', final (m s) = Some s' ->
                shape (vn s') = shape (vn s)
                /\ last_finger (vn s') = last_finger (vn s)) ->
  keeps m.
Proof.
  intros Hm s s' Hfin. destruct (Hm s s' Hfin) as [Hs Hlf].
  split; [exact Hs|]. intros Hinv. apply (fingerInv_shape _ _ Hs); [|done].
  rewrite Hlf. apply Hinv.
Qed.

Lemma keeps_checkNewSuccessor : keeps (checkNewSuccessor H E).
Proof.
  apply keeps_frame. intros s s'. unfold checkNewSuccessor. run_go.
  unfold Slice.index. simpl.
  destruct (successors (vn s)) as [|succ rest] eqn:Hsucc; simpl;
    [by leaves|].
  destruct (tGetPredecessor E succ (world s)) as [[cand [e|]] w1]; simpl.
  - destruct (tPing E succ w1) as [[[] pe] w2]; simpl;
      [by leaves|].
    rewrite Hsucc.
    destruct (Slice.store _ _ _) as [l|] eqn:Hstore; simpl;
      leaves; simpl; unfold shape; simpl; rewrite ?Hsucc.
    + apply store_length in Hstore.
      by rewrite Hstore, copy_down_length.
    + match goal with |- context [length (?a ++ ?b)] =>
        assert (Hlen : length (a ++ b) = length (succ :: rest))
          by (rewrite length_app, !length_drop; simpl; lia)
      end.
      by rewrite Hlen.
  - destruct cand as [c|]; [|by leaves].
    destruct succ as [s0|]; simpl; [|by leaves].
    destruct (between H _ _ _); [|by leaves].
    destruct (tPing E _ _) as [[alive pe] w2]; simpl.
    destruct (alive && is_nil pe); [|by leaves].
    cbn [vn world trace].
    destruct (Slice.store _ _ _) as [l|] eqn:Hstore; simpl;
      leaves; simpl; unfold shape; simpl; [|done].
    apply store_length in Hstore. by rewrite Hstore.
Qed.

(** The [range] loop of [notifySuccessor] writes to the successor slots
    after the first and to nothing else. *)
Lemma spliceSuccessors_frame l idx (s s' : State W) :
  0 <= idx ->
  final (spliceSuccessors l idx s) = Some s' ->
  shape (vn s') = shape (vn s)
  /\ last_finger (vn s') = last_finger (vn s)
  /\ predecessor (vn s') = predecessor (vn s)
  /\ stabilized (vn s') = stabilized (vn s)
  /\ timer (vn s') = timer (vn s)
  /\ world s' = world s /\ trace s' = trace s
  /\ successors (vn s') !! 0%nat = successors (vn s) !! 0%nat.
Proof.
  revert idx s. induction l as [|[x|] l IH]; intros idx s Hidx; simpl;
    run_go; try by leaves.
  destruct (Slice.store _ _ _) as [l'|] eqn:Hstore; simpl;
    [|by leaves].
  intros Hfin. apply IH in Hfin; [|lia]. simpl in Hfin.
  destruct Hfin as (Hs & Hlf & Hp & Hst & Ht & Hw & Htr & Hhd).
  repeat split; try done.
  - rewrite Hs. unfold shape. simpl.
    apply store_length in Hstore. by rewrite Hstore.
  - rewrite Hhd. unfold Slice.store in Hstore.
    destruct (_ && _); [|discriminate]. injection Hstore as <-.
    apply list_lookup_insert_ne. lia.
Qed.

Lemma notifySuccessor_frame (s s' : State W) :
  final (notifySuccessor E s) = Some s' ->
  shape (vn s') = shape (vn s)
  /\ last_finger (vn s') = last_finger (vn s)
  /\ predecessor (vn s') = predecessor (vn s)
  /\ stabilized (vn s') = stabilized (vn s)
  /\ successors (vn s') !! 0%nat = successors (vn s) !! 0%nat.
Proof.
  unfold notifySuccessor. run_go.
  destruct (Slice.index _ _) as [succ|]; simpl; [|by leaves].
  destruct (tNotify E succ (self (vn s)) (world s)) as [[res [e|]] w1];
    simpl; [by leaves|].
  destruct (_ >? _).
  - destruct (Slice.slice _ _ _) as [l|]; simpl; [|by leaves].
    match goal with |- context [spliceSuccessors l 0 ?s1] =>
      pose proof (spliceSuccessors_frame l 0 s1) as Hsp;
      destruct (spliceSuccessors l 0 s1) as [[] s2|s2|]
    end; simpl; try discriminate; leaves;
      destruct (Hsp s2 ltac:(lia) eq_refl) as (? & ? & ? & ? & ? & ? & ? & ?);
      done.
  - match goal with |- context [spliceSuccessors res 0 ?s1] =>
      pose proof (spliceSuccessors_frame res 0 s1) as Hsp;
      destruct (spliceSuccessors res 0 s1) as [[] s2|s2|]
    end; simpl; try discriminate; leaves;
      destruct (Hsp s2 ltac:(lia) eq_refl) as (? & ? & ? & ? & ? & ? & ? & ?);
      done.
Qed.

Lemma keeps_notifySuccessor : keeps (notifySuccessor E).
Proof.
  apply keeps_frame. intros s s' Hfin.
  apply notifySuccessor_frame in Hfin. tauto.
Qed.

Lemma keeps_checkPredecessor : keeps (checkPredecessor E).
Proof.
  apply keeps_frame. intros s s'. unfold checkPredecessor. run_go.
  destruct (predecessor (vn s)) as [p|]; [|by leaves].
  destruct (tPing E (Some p) (world s)) as [[[] [e|]] w1]; simpl;
    by leaves.
Qed.

Lemma keeps_schedule : keeps (schedule E).
Proof.
  apply keeps_frame. intros s s'. unfold schedule. run_go.
  destruct (randStabilize E _ _) as [d w]. by leaves.
Qed.

(** The skipping loop keeps the shape, and a cursor that points into the
    table goes on doing so. *)
Lemma skipFingers_frame fuel hb node (s s' : State W) :
  final (skipFingers H fuel hb node s) = Some s' ->
  shape (vn s') = shape (vn s)
  /\ (0 <= last_finger (vn s) < hb -> 0 <= last_finger (vn s') < hb).
Proof.
  revert s. induction fuel as [|fuel IH]; intros s;
    rewrite skipFingers_unfold; run_go;
    destruct (_ >=? hb) eqn:Hge; try (by leaves);
    destruct (betweenRightIncl H _ _ _); try (by leaves);
    destruct (Slice.store _ _ _) as [l|] eqn:Hstore; simpl;
    try (by leaves); try discriminate.
  intros Hfin. apply IH in Hfin. simpl in Hfin.
  destruct Hfin as [Hs Hlf]. split.
  - rewrite Hs. unfold shape. simpl.
    apply store_length in Hstore. by rewrite Hstore.
  - intros _. apply Hlf. unfold Slice.store in Hstore.
    destruct (Z.leb_spec 0 (GoInt.add (last_finger (vn s)) 1));
      [|discriminate].
    unfold Z.geb in Hge.
    destruct (Z.compare_spec (GoInt.add (last_finger (vn s)) 1) hb);
      try discriminate. lia.
Qed.

Lemma keeps_fixFingerTable : keeps (fixFingerTable H E).
Proof.
  intros s s'. unfold fixFingerTable. run_go.
  destruct (FindSuccessors_outcome 1
              (powerOffset H (Id (self (vn s))) (last_finger (vn s))
                           (HashBits (config (ring (vn s))))) s)
    as [(res & err & s1 & Heq & Hvn & _)|Heq]; rewrite Heq; [|by leaves].
  destruct res as [|[nd|] res]; simpl.
  - leaves. by rewrite Hvn.
  - destruct err as [e|]; [leaves; by rewrite Hvn|].
    rewrite Hvn.
    destruct (Slice.store _ _ _) as [l|] eqn:Hstore; simpl;
      [|leaves; by rewrite Hvn].
    apply store_length in Hstore as Hl.
    match goal with |- context [skipFingers H ?f ?hb nd ?s2] =>
      pose proof (skipFingers_frame f hb nd s2) as Hskip;
      destruct (skipFingers H f hb nd s2) as [[] s3|s3|]
    end; simpl in *; [| |discriminate].
    + destruct (Hskip s3 eq_refl) as [Hs3 Hlf3]. clear Hskip.
      rewrite Hvn in Hs3, Hlf3.
      assert (Hs : shape (vn s3) = shape (vn s))
        by (rewrite Hs3; unfold shape; simpl; by rewrite Hl).
      destruct (Z.eqb_spec (GoInt.add (last_finger (vn s3)) 1)
                           (HashBits (config (ring (vn s)))))
        as [Hwrap|Hne]; leaves; simpl; (split; [exact Hs|]);
        intros Hinv;
        (apply fingerInv_shape with (v := vn s);
         [exact Hs| |exact Hinv]);
        simpl; destruct Hinv as (Hlen & Hlf & Hmax);
        specialize (Hlf3 Hlf); unfold GoInt.max_int in Hmax.
      * lia.
      * rewrite GoIntFacts.add_small in *
          by (unfold GoInt.in_range, GoInt.min_int, GoInt.max_int; lia).
        lia.
    + destruct (Hskip s3 eq_refl) as [Hs3 Hlf3]. clear Hskip.
      rewrite Hvn in Hs3, Hlf3.
      leaves.
      assert (Hs : shape (vn s3) = shape (vn s))
        by (rewrite Hs3; unfold shape; simpl; by rewrite Hl).
      split; [exact Hs|].
      intros Hinv. apply (fingerInv_shape _ _ Hs); [|exact Hinv].
      apply Hlf3, Hinv.
  - leaves. by rewrite Hvn.
Qed.

Lemma keeps_logged format (step : M W (option error)) :
  keeps step -> keeps (logged format step).
Proof.
  intros Hstep. unfold logged. apply keeps_bind; [exact Hstep|].
  intros [e|]; apply keeps_frame; intros s s'; run_go; by leaves.
Qed.

Lemma keeps_deferring {A} (d : M W unit) (body : M W A) :
  keeps d -> keeps body -> keeps (deferring d body).
Proof.
  intros Hd Hb s s'. unfold deferring.
  destruct (body s) as [a s1|s1|] eqn:Hbs; [| |discriminate];
    (destruct (Hb s s1) as [Hs1 Hi1]; [by rewrite Hbs|]);
    destruct (d s1) as [[] s2|s2|] eqn:Hds; try discriminate;
    leaves;
    (destruct (Hd s1 s2) as [Hs2 Hi2]; [by rewrite Hds|]);
    (split; [congruence|auto]).
Qed.

Lemma keeps_stabilize : keeps (stabilize H E).
Proof.
  unfold stabilize.
  apply keeps_bind;
    [apply keeps_frame; intros s0 s0'; run_go; by leaves|intros _].
  apply keeps_bind;
    [apply keeps_frame; intros s0 s0'; run_go; by leaves|intros v].
  destruct (shutdown (ring v));
    [apply keeps_frame; intros s0 s0'; run_go; by leaves|].
  apply keeps_deferring; [apply keeps_schedule|].
  apply keeps_bind;
    [apply keeps_logged, keeps_checkNewSuccessor|intros _].
  apply keeps_bind; [apply keeps_logged, keeps_notifySuccessor|intros _].
  apply keeps_bind; [apply keeps_logged, keeps_fixFingerTable|intros _].
  apply keeps_bind;
    [apply keeps_logged, keeps_checkPredecessor|intros _].
  apply keeps_bind;
    [apply keeps_frame; intros s0 s0'; run_go;
     destruct (timeNow E (world s0)); by leaves|intros now].
  apply keeps_frame; intros s0 s0'; run_go; by leaves.
Qed.

(** *** stabilize *)

(** X6: however a cycle ends, by return or by panic, the vnode keeps its
    identity and its ring, its successor list and its finger table keep
    their lengths, and a finger table of [HashBits] slots with its cursor
    inside stays so. *)
Theorem stabilize_keeps_shape (s s' : State W) :
  stabilize H E s = Done tt s' \/ stabilize H E s = Panicked s' ->
  self (vn s') = self (vn s)
  /\ ring (vn s') = ring (vn s)
  /\ Slice.len (successors (vn s')) = Slice.len (successors (vn s))
  /\ Slice.len (finger (vn s')) = Slice.len (finger (vn s))
  /\ (fingerInv (vn s) -> fingerInv (vn s')).
Proof.
  intros Hout.
  destruct (keeps_stabilize s s') as [Hs Hinv];
    [by destruct Hout as [-> | ->]|].
  unfold shape in Hs. injection Hs as Hself Hring Hsucc Hfing.
  unfold Slice.len. rewrite Hsucc, Hfing. auto.
Qed.

(** X7: a cycle that finds its first successor dead (the GetPredecessor
    RPC fails and the probe says "not alive") while the next slot holds no
    node always panics: the successor is dropped, the first slot is nil
    from then on whatever the notification brings, and the lookup of
    [fixFingerTable] reads it.  The predecessor check does not run, the
    instant is not recorded, and the next timer is armed. *)
Theorem stabilize_panics_when_last_successor_dies
  (s : State W) (succ : option Vnode) (rest : list (option Vnode))
  (res : option Vnode) (e : error) (pe : option error) (w1 w2 : W) :
  shutdown (ring (vn s)) = false ->
  successors (vn s) = succ :: rest ->
  hd None rest = None ->
  tGetPredecessor E succ (world s) = ((res, Some e), w1) ->
  tPing E succ w1 = ((false, pe), w2) ->
  exists s' d,
    stabilize H E s = Panicked s'
    /\ successors (vn s') !! 0%nat = Some None
    /\ predecessor (vn s') = predecessor (vn s)
    /\ stabilized (vn s') = stabilized (vn s)
    /\ timer (vn s') = Some d.
Proof.
  intros Hsd Hsucc Hnext Hgp Hping.
  rewrite stabilize_unfold, Hsd. cbv zeta. unfold deferring.
  set (s0 := mkState (set_timer None (vn s)) (world s) (trace s)).
  assert (Hcheck : exists tr1,
             checkNewSuccessor H E s0
             = Done None (mkState (set_successors (rest ++ [None])
                                                  (set_timer None (vn s)))
                                  w2 tr1)).
  { unfold checkNewSuccessor. run_go. subst s0. cbn [vn world trace].
    change (successors (set_timer None (vn s))) with (successors (vn s)).
    rewrite Hsucc. unfold Slice.index. simpl. rewrite Hgp. simpl.
    rewrite Hping. simpl.
    change (successors (set_timer None (vn s))) with (successors (vn s)).
    rewrite Hsucc.
    rewrite SliceFacts.shift_left. simpl. eauto. }
  destruct Hcheck as [tr1 Hcheck].
  unfold mbind at 1, M_bind at 1.
  rewrite (logged_done _ _ _ _ _ Hcheck). unfold noteError.
  set (s1 := mkState _ w2 tr1).
  assert (Hhd1 : successors (vn s1) !! 0%nat = Some None).
  { subst s1. simpl. destruct rest as [|[x|] rest']; try discriminate;
      reflexivity. }
  assert (Hnil : forall l : list (option Vnode),
             l !! 0%nat = Some None -> hd None l = None)
    by (intros [|[x|] l]; simpl; congruence).
  unfold mbind at 1, M_bind at 1.
  pose proof (notifySuccessor_frame s1) as Hframe.
  pose proof (notifySuccessor_returns s1) as Hret.
  destruct (notifySuccessor E s1) as [e2 s2|s2|] eqn:Hnotify;
    [| |done];
    destruct (Hframe s2 eq_refl) as (_ & _ & Hp2 & Hst2 & Hhd2).
  - rewrite (logged_done _ _ _ _ _ Hnotify).
    unfold mbind at 1, M_bind at 1.
    rewrite (logged_panicked _ (fixFingerTable H E)
                             (noteError logNotify e2 s2)
                             (noteError logNotify e2 s2))
      by (apply fixFingerTable_nil_head_panics, Hnil;
          destruct e2; simpl; by rewrite Hhd2).
    destruct (schedule_arms (noteError logNotify e2 s2))
      as (d & w & ->).
    eexists _, d. split; [reflexivity|].
    destruct e2; simpl; rewrite Hhd2, Hp2, Hst2; auto.
  - rewrite (logged_panicked _ _ _ _ Hnotify).
    destruct (schedule_arms s2) as (d & w & ->).
    eexists _, d. split; [reflexivity|].
    simpl. rewrite Hhd2, Hp2, Hst2. auto.
Qed.

End MethodFacts.


(** ** [init] *)
Section InitFacts.

Context {W : Type}.
Variable H : Helpers.
Variable E : Env W.
Variable hostname : string.
Variable hashFunc : list byte -> list byte.
Variable tRegister : Vnode -> W -> W.

Lemma make_nonneg n :
  0 <= n -> make n = Some (replicate (Z.to_nat n) None).
Proof. intros Hn. unfold make. by destruct (Z.ltb_spec n 0); [lia|]. Qed.

(** With sizes that are not negative, [init] returns nil and leaves the
    vnode with its new Id and two tables of nil entries. *)
Lemma init_done idx (s : State W) :
  0 <= NumSuccessors (config (ring (vn s))) ->
  0 <= HashBits (config (ring (vn s))) ->
  let id := hashFunc (list_byte_of_string hostname
                      ++ bigEndian16 (uint16 idx)) in
  let me := mkVnode id (Host (self (vn s))) in
  init hostname hashFunc tRegister idx s
  = Done None
      (mkState
         (mkLocal me (ring (vn s))
            (replicate (Z.to_nat (NumSuccessors (config (ring (vn s))))) None)
            (replicate (Z.to_nat (HashBits (config (ring (vn s))))) None)
            (last_finger (vn s)) (predecessor (vn s)) (stabilized (vn s))
            (timer (vn s)))
         (tRegister me (world s)) (trace s)).
Proof.
  intros Hns Hhb. unfold init, genId. run_go. simpl.
  rewrite make_nonneg by done. simpl.
  rewrite make_nonneg by done. reflexivity.
Qed.

(** X1: on a fresh vnode (cursor 0) of a ring whose sizes are in order,
    [init] returns nil and sets up what the other methods rely on: the Id
    is the digest of the host name followed by the two low bytes of the
    index, high byte first (so indexes that agree modulo 65536 give the
    same Id); the successor list has [NumSuccessors] slots and the finger
    table [HashBits], all nil, with the cursor inside; and the vnode is
    registered with the transport under that Id. *)
Theorem init_establishes_invariant idx (s : State W) :
  0 <= NumSuccessors (config (ring (vn s))) ->
  0 < HashBits (config (ring (vn s))) <= GoInt.max_int ->
  last_finger (vn s) = 0 ->
  exists s',
    init hostname hashFunc tRegister idx s = Done None s'
    /\ Id (self (vn s'))
       = hashFunc (list_byte_of_string hostname
                   ++ [byteOf ((idx / 256) mod 256); byteOf (idx mod 256)])
    /\ Slice.len (successors (vn s'))
       = NumSuccessors (config (ring (vn s')))
    /\ Forall (fun x => x = None) (successors (vn s'))
    /\ Forall (fun x => x = None) (finger (vn s'))
    /\ fingerInv (vn s')
    /\ world s' = tRegister (self (vn s')) (world s)
    /\ trace s' = trace s.
Proof.
  intros Hns Hhb Hlf. eexists. split; [apply init_done; lia|]. simpl.
  repeat split.
  - unfold bigEndian16, uint16. change (2 ^ 16) with 65536.
    assert (Hhi : idx mod 65536 / 256 = (idx / 256) mod 256)
      by (Z.div_mod_to_equations; lia).
    assert (Hlo : (idx mod 65536) mod 256 = idx mod 256)
      by (Z.div_mod_to_equations; lia).
    by rewrite Hhi, Hlo.
  - unfold Slice.len. rewrite length_replicate. lia.
  - apply Forall_replicate. reflexivity.
  - apply Forall_replicate. reflexivity.
  - unfold Slice.len. simpl. rewrite length_replicate. lia.
  - simpl. lia.
  - simpl. lia.
  - simpl. lia.
Qed.

(** X2: with a negative [NumSuccessors] or [HashBits], [init] panics in
    [make] and the vnode is never registered with the transport. *)
Theorem init_negative_size_panics idx (s : State W) :
  NumSuccessors (config (ring (vn s))) < 0
  \/ HashBits (config (ring (vn s))) < 0 ->
  exists s',
    init hostname hashFunc tRegister idx s = Panicked s'
    /\ world s' = world s.
Proof.
  intros Hneg. unfold init, genId, make. run_go. simpl.
  destruct (Z.ltb_spec (NumSuccessors (config (ring (vn s)))) 0);
    simpl; [by eexists|].
  destruct (Z.ltb_spec (HashBits (config (ring (vn s)))) 0);
    simpl; [by eexists|]. lia.
Qed.

(** X3: [init] leaves the vnode without a successor, and until one is put
    in the first slot every lookup on it panics, whatever is asked, and so
    does [fixFingerTable]. *)
Theorem init_then_lookup_panics idx n key (s : State W) :
  0 <= NumSuccessors (config (ring (vn s))) ->
  0 <= HashBits (config (ring (vn s))) ->
  exists s',
    init hostname hashFunc tRegister idx s = Done None s'
    /\ FindSuccessors H E n key s' = Panicked s'
    /\ fixFingerTable H E s' = Panicked s'.
Proof.
  intros Hns Hhb. eexists. split; [by apply init_done|].
  match goal with |- FindSuccessors H E n key ?s1 = _ /\ _ =>
    assert (Hhd : hd None (successors (vn s1)) = None)
      by (simpl; by destruct (Z.to_nat _))
  end.
  split; [by apply FindSuccessors_nil_head_panics|].
  by apply fixFingerTable_nil_head_panics.
Qed.

End InitFacts.

(** * The methods on the ring of three nodes *)
Module Examples.
Import Ring64 Scenario.

(** C2 (what the code does): with [successors = [20, 30]] and [n = 1] the
    scan stops after index 0, whose successor 20 does not cover key 25, and
    never looks at node 30: the lookup goes to node 20 over RPC, whatever
    the transport, and its result is what that RPC gives. *)
Theorem FindSuccessors_key25_goes_remote {W} (E : Env W) (w : W) :
  FindSuccessors SpecModel.helpers E 1 (id 25) (mkState n10 w []) =
  match tFindSuccessors E (Some n20) 1 (id 25) w with
  | ((res, None), w') =>
      Done (res, None)
           (mkState n10 w' [RpcFindSuccessors (Some n20) 1 (id 25)])
  | ((_, Some e), w') =>
      Done ([], Some ErrExhausted)
           (mkState n10 w'
              [RpcFindSuccessors (Some n20) 1 (id 25);
               LogPrintf "[ERR] Failed to contact %s. Got %s"
                         [ArgVnode n20; ArgError (Some e)]])
  end.
Proof.
  unfold FindSuccessors. run_go.
  change (scanSuccessors SpecModel.helpers
            (GoInt.max (GoInt.sub (knownSuccessors (successors n10) 0 0) 1) 1)
            (id 25) (successors n10) 0 (mkState n10 w []))
    with (Done (W:=W) (@None Z) (mkState n10 w [])).
  change (cpYields SpecModel.helpers n10 (id 25)) with [(n20, @None error)].
  cbn [tryPreceding]. run_go.
  destruct (tFindSuccessors E (Some n20) 1 (id 25) w) as [[res [e|]] w'];
    reflexivity.
Qed.

(** The same whatever the iterator: once node 20 does not cover key 25 the
    scan is over and the routing loop decides. *)
Lemma FindSuccessors_key25_scan_misses {W} (H : Helpers) (E : Env W)
  (w : W) (tr : list Event) :
  betweenRightIncl H (id 10) (id 20) (id 25) = false ->
  FindSuccessors H E 1 (id 25) (mkState n10 w tr)
  = tryPreceding E 1 (id 25) (cpYields H n10 (id 25)) (mkState n10 w tr).
Proof.
  intros Hb. unfold FindSuccessors. run_go.
  change (knownSuccessors (successors n10) 0 0) with 2.
  change (GoInt.max (GoInt.sub 2 1) 1) with 1.
  rewrite scanSuccessors_unfold. 
  change (successors n10) with [Some n20; Some n30].
  change (0 <? 1) with true. run_go.
  change (Id (self n10)) with (id 10). change (Id n20) with (id 20).
  rewrite Hb. rewrite scanSuccessors_unfold. reflexivity.
Qed.

(** Node 30 does cover key 25: the answer the scenario expects is in the
    list, one index beyond the scan. *)
Example node30_covers_key25 :
  covers SpecModel.helpers n10 (id 25) n30
  /\ ~ covers SpecModel.helpers n10 (id 25) n20.
Proof. split; [reflexivity|discriminate]. Qed.

(** The ring arithmetic as the spec describes it, on the ring of 64. *)
Example ring_arithmetic :
  SpecModel.between (id 10) (id 20) (id 15) = true
  /\ SpecModel.between (id 10) (id 20) (id 20) = false
  /\ SpecModel.between (id 10) (id 20) (id 10) = false
  /\ SpecModel.betweenRightIncl (id 10) (id 20) (id 20) = true
  /\ SpecModel.betweenRightIncl (id 10) (id 20) (id 10) = false
  /\ SpecModel.between (id 60) (id 5) (id 2) = true
  /\ SpecModel.between (id 60) (id 5) (id 30) = false
  /\ SpecModel.powerOffset (id 10) 0 6 = id 11
  /\ SpecModel.powerOffset (id 10) 5 6 = id 42
  /\ SpecModel.powerOffset (id 40) 5 6 = id 8.
Proof. repeat split. Qed.

(** C4 at node 10 when node 20 is dead: the list [[20, 30]] becomes
    [[30, nil]]. *)
Lemma checkNewSuccessor_rpc_failure_witness :
  checkNewSuccessor SpecModel.helpers silent (mkState n10 0%nat [])
  = Done None
         (mkState (set_successors [Some n30; None] n10) 2%nat
                  [RpcGetPredecessor (Some n20); RpcPing (Some n20)]).
Proof.
  exact (checkNewSuccessor_rpc_failure SpecModel.helpers silent n10
           0%nat 1%nat 2%nat [] (Some n20) None [Some n30]
           "unreachable"%string false unreachable eq_refl eq_refl eq_refl).
Defined.

(** C5 at node 10 when node 15 has joined before node 20. *)
Lemma checkNewSuccessor_closer_candidate_witness :
  checkNewSuccessor SpecModel.helpers joined (mkState n10 0%nat [])
  = Done None
         (mkState (set_successors [Some n15; Some n30] n10) 2%nat
                  [RpcGetPredecessor (Some n20); RpcPing (Some n15)]).
Proof.
  exact (checkNewSuccessor_closer_candidate SpecModel.helpers joined n10
           0%nat 1%nat 2%nat [] n20 n15 [Some n30] true None
           eq_refl eq_refl eq_refl eq_refl).
Defined.

(** C7 at node 10: without a predecessor, and with predecessor 5 when the
    probe fails with an error. *)
Lemma checkPredecessor_witness :
  checkPredecessor silent (mkState n10 0%nat [])
  = Done None (mkState n10 0%nat [])
  /\ checkPredecessor silent (mkState guarded 0%nat [])
     = Done unreachable (mkState guarded 1%nat [RpcPing (Some n5)]).
Proof.
  split.
  - exact (proj1 (checkPredecessor_clears_only_when_certain
                    silent n10 0%nat []) eq_refl).
  - destruct (proj2 (checkPredecessor_clears_only_when_certain
                       silent guarded 0%nat [])
                    n5 false unreachable 1%nat eq_refl eq_refl)
      as (v' & Hrun & _ & Hsame & _).
    rewrite Hrun, Hsame; [reflexivity|discriminate].
Defined.

(** C10 at node 10 with an all-nil successor list. *)
Lemma FindSuccessors_without_successors_witness :
  FindSuccessors SpecModel.helpers silent 1 (id 25) (mkState orphan 0%nat [])
  = Panicked (mkState orphan 0%nat []).
Proof.
  apply FindSuccessors_without_successors_panics.
  repeat constructor.
Defined.

(** C3 as the spec states it fails twice.  With [successors = [20, nil]]
    and [n = 2] the call answers [[20, nil]], a partial result, from the
    local list.  With [successors = [20, 30]], [n = 1] and key 25, node 30
    is a live entry covering the key, but the call goes to node 20 and
    fails when node 20 does not answer. *)
Lemma FindSuccessors_incomplete_counterexample :
  ~ completeLookup SpecModel.helpers silent 2 (id 15)
      (mkState (lone 0) 0%nat [])
  /\ ~ completeLookup SpecModel.helpers silent 1 (id 25)
        (mkState n10 0%nat []).
Proof.
  split; intros Hc.
  - destruct (Hc ltac:(vm_compute; discriminate)) as [_ [_ Hall]].
    inversion Hall as [|x l _ Hrest]; subst.
    inversion Hrest as [|y l' Hy _]; subst. by apply Hy.
  - destruct (Hc ltac:(vm_compute; discriminate)) as [Hlocal _].
    destruct (Hlocal ltac:(vm_compute; discriminate))
      as (res & s' & Hrun & _).
    discriminate Hrun.
Qed.

(** The partial answer of the first case. *)
Example FindSuccessors_partial_local_answer :
  FindSuccessors SpecModel.helpers silent 2 (id 15)
    (mkState (lone 0) 0%nat [])
  = Done ([Some n20; None], None) (mkState (lone 0) 0%nat []).
Proof. reflexivity. Qed.

(** C3 (amended) at node 10 for key 15, which node 20 covers. *)
Lemma FindSuccessors_local_else_remote_witness :
  FindSuccessors SpecModel.helpers silent 1 (id 15) (mkState n10 0%nat [])
  = Done ([Some n20], None) (mkState n10 0%nat []).
Proof.
  destruct (FindSuccessors_local_else_remote SpecModel.helpers silent
              (mkState n10 0%nat []) 1 (id 15) [n20; n30] 0 eq_refl
              ltac:(vm_compute; discriminate)
              ltac:(split; vm_compute; discriminate))
    as [Hlocal _].
  destruct (Hlocal 0%nat n20 eq_refl eq_refl) as [Hrun _].
  - intros j y Hj. lia.
  - by left.
  - exact Hrun.
Defined.

(** C1 at node 10 with its cursor on finger 5 (target 42) when node 20
    does not answer: the lookup fails and the call panics. *)
Lemma fixFingerTable_resolve_error_witness :
  fixFingerTable SpecModel.helpers silent (mkState (lone 5) 0%nat [])
  = Panicked
      (mkState (lone 5) 1%nat
         [RpcFindSuccessors (Some n20) 1 (id 42);
          LogPrintf "[ERR] Failed to contact %s. Got %s"
                    [ArgVnode n20; ArgError unreachable]]).
Proof.
  exact (fixFingerTable_resolve_error_panics SpecModel.helpers silent
           (mkState (lone 5) 0%nat []) _ [] ErrExhausted eq_refl).
Defined.

(** C8 at the same node when node 20 answers everything but the lookup:
    two RPCs, the failed lookup, the timer armed, and a panic. *)
Lemma stabilize_aborts_witness :
  stabilize SpecModel.helpers flaky (mkState (lone 5) 0%nat [])
  = Panicked
      (mkState (set_timer (Some 1000) (lone 5)) 3%nat
         [RpcGetPredecessor (Some n20); RpcNotify (Some n20) (node 10);
          RpcFindSuccessors (Some n20) 1 (id 42);
          LogPrintf "[ERR] Failed to contact %s. Got %s"
                    [ArgVnode n20; ArgError unreachable];
          TimerAfterFunc 1000]).
Proof.
  etransitivity; [eapply stabilize_aborts_when_finger_fix_panics|].
  - reflexivity.
  - lazy. reflexivity.
  - lazy. reflexivity.
  - lazy. reflexivity.
  - lazy. reflexivity.
  - reflexivity.
Defined.

(** C9 at node 10 knowing node 20: one step from cursor 0, and six cycles
    on a ring where node 20 routes to node 30. *)
Lemma fixFingerTable_greedy_round_robin_witness :
  (exists top fing,
      fixFingerTable SpecModel.helpers silent (mkState (lone 0) 0%nat [])
      = Done None (withFingers fing ((top + 1) mod 6)
                               (mkState (lone 0) 0%nat []))
      /\ 0 <= top < 6
      /\ fing !! 0%nat = Some (Some n20))
  /\
  (exists s6,
      repairRun SpecModel.helpers routed 6 (mkState (lone 0) 0%nat []) s6
      /\ forall j, 0 <= j < 6 -> filled s6 j).
Proof.
  split.
  - destruct (proj1 (fixFingerTable_greedy_round_robin SpecModel.helpers
                       silent)
                (mkState (lone 0) 0%nat []) (mkState (lone 0) 0%nat [])
                n20 [])
      as (top & fing & Hrun & _ & Htop & _ & _ & Hfill & _).
    + repeat split; vm_compute; discriminate.
    + reflexivity.
    + exists top, fing. split; [exact Hrun|]. split; [exact Htop|].
      change (0 <= top < 6) in Htop. apply (Hfill 0).
      change (0 <= 0 <= top). lia.
  - eexists. split.
    + do 6 (eapply repairRun_cycle;
              [lazy; reflexivity|lazy; reflexivity
              |repeat split; reflexivity|]).
      apply repairRun_done.
    + eapply (proj2 (fixFingerTable_greedy_round_robin SpecModel.helpers
                       routed) 6%nat (mkState (lone 0) 0%nat [])).
      * do 6 (eapply repairRun_cycle;
                [lazy; reflexivity|lazy; reflexivity
                |repeat split; reflexivity|]).
        apply repairRun_done.
      * repeat split; vm_compute; discriminate.
      * vm_compute. discriminate.
Defined.

(** The step of the first part, evaluated: fingers 0 to 3 target keys 11,
    12, 14 and 18, all covered by node 20; finger 4 targets key 26. *)
Example fixFingerTable_fills_four_slots :
  fixFingerTable SpecModel.helpers silent (mkState (lone 0) 0%nat [])
  = Done None
      (withFingers [Some n20; Some n20; Some n20; Some n20; None; None] 4
                   (mkState (lone 0) 0%nat [])).
Proof. reflexivity. Qed.

End Examples.

(** The other paths of the methods, each on a run of node 10. *)
Module Runs.
Import Ring64 Scenario Outage.

(** X1 on a blank vnode of a ring with two successors and six hash bits:
    index 10 on host "localhost" gives, with the toy hash, the Id 10. *)
Lemma init_establishes_invariant_witness :
  exists s',
    init "localhost" lastByte register 10 (mkState (blank 2 6) 0%nat [])
    = Done None s'
    /\ Id (self (vn s')) = id 10
    /\ successors (vn s') = [None; None]
    /\ fingerInv (vn s')
    /\ world s' = 1%nat.
Proof.
  destruct (init_establishes_invariant "localhost" lastByte register 10
              (mkState (blank 2 6) 0%nat []))
    as (s' & Hrun & Hid & _ & _ & _ & Hinv & Hw & _).
  - simpl. lia.
  - simpl. unfold GoInt.max_int. lia.
  - reflexivity.
  - exists s'. split; [exact Hrun|].
    assert (Hs' : s' = mkState (initial (node 10) (mkRing (cfg 2) false))
                               1%nat [])
      by (vm_compute in Hrun; injection Hrun as <-; reflexivity).
    split; [exact Hid|]. split; [by rewrite Hs'|].
    split; [exact Hinv|]. by rewrite Hs'.
Defined.

(** X2 on a ring configured with a negative number of successors. *)
Lemma init_negative_size_witness :
  exists s',
    init "localhost" lastByte register 10 (mkState (blank (-1) 6) 0%nat [])
    = Panicked s'
    /\ world s' = 0%nat.
Proof.
  apply (init_negative_size_panics "localhost" lastByte register 10
           (mkState (blank (-1) 6) 0%nat [])).
  left. simpl. lia.
Defined.

(** X3: a lookup of key 25 right after [init]. *)
Lemma init_then_lookup_witness :
  exists s',
    init "localhost" lastByte register 10 (mkState (blank 2 6) 0%nat [])
    = Done None s'
    /\ FindSuccessors SpecModel.helpers silent 1 (id 25) s' = Panicked s'
    /\ fixFingerTable SpecModel.helpers silent s' = Panicked s'.
Proof.
  apply (init_then_lookup_panics SpecModel.helpers silent "localhost"
           lastByte register 10 1 (id 25) (mkState (blank 2 6) 0%nat []));
    simpl; lia.
Defined.

(** X4 at node 10 when node 20 does not answer lookups. *)
Lemma stabilize_always_reschedules_witness :
  exists s' d,
    (stabilize SpecModel.helpers flaky (mkState (lone 5) 0%nat [])
     = Done tt s'
     \/ stabilize SpecModel.helpers flaky (mkState (lone 5) 0%nat [])
        = Panicked s')
    /\ timer (vn s') = Some d
    /\ last (trace s') = Some (TimerAfterFunc d).
Proof.
  apply (stabilize_always_reschedules SpecModel.helpers flaky
           (mkState (lone 5) 0%nat [])).
  reflexivity.
Defined.

(** X5 at node 10 of the ring of nodes 10, 20 and 30 when node 15 has
    joined: the cycle adopts node 15, fills the first finger and records
    the instant. *)
Lemma stabilize_cycle_witness :
  exists s',
    stabilize SpecModel.helpers joined (mkState n10 0%nat []) = Done tt s'
    /\ successors (vn s') = [Some n15; Some n30]
    /\ stabilized (vn s') = 3
    /\ timer (vn s') = Some 1000.
Proof.
  eexists. split.
  - eapply (stabilize_cycle SpecModel.helpers joined
              (mkState n10 0%nat [])).
    + reflexivity.
    + lazy. reflexivity.
    + lazy. reflexivity.
    + lazy. reflexivity.
    + lazy. reflexivity.
    + lazy. reflexivity.
    + lazy. reflexivity.
  - repeat split.
Defined.

(** X6 at node 10 on the cycle that panics in [fixFingerTable]. *)
Lemma stabilize_keeps_shape_witness :
  stabilize SpecModel.helpers flaky (mkState (lone 5) 0%nat [])
  = Panicked aborted
  /\ self (vn aborted) = node 10
  /\ Slice.len (successors (vn aborted)) = 2
  /\ fingerInv (vn aborted).
Proof.
  assert (Hrun : stabilize SpecModel.helpers flaky
                           (mkState (lone 5) 0%nat [])
                 = Panicked aborted) by (vm_compute; reflexivity).
  split; [exact Hrun|].
  destruct (stabilize_keeps_shape SpecModel.helpers flaky
              (mkState (lone 5) 0%nat []) aborted (or_intror Hrun))
    as (Hself & _ & Hsucc & _ & Hinv).
  split; [exact Hself|]. split; [exact Hsucc|].
  apply Hinv. repeat split; vm_compute; discriminate.
Defined.

(** X7 at node 10 knowing only node 20, when no peer answers. *)
Lemma stabilize_last_successor_witness :
  exists s' d,
    stabilize SpecModel.helpers silent (mkState (lone 0) 0%nat [])
    = Panicked s'
    /\ successors (vn s') !! 0%nat = Some None
    /\ predecessor (vn s') = None
    /\ stabilized (vn s') = 0
    /\ timer (vn s') = Some d.
Proof.
  apply (stabilize_panics_when_last_successor_dies SpecModel.helpers silent
           (mkState (lone 0) 0%nat []) (Some n20) [None] None
           "unreachable"%string unreachable 1%nat 2%nat);
    reflexivity.
Defined.

(** X8 at node 10 when node 20 knows no predecessor. *)
Lemma checkNewSuccessor_no_closer_node_witness :
  checkNewSuccessor SpecModel.helpers flaky (mkState n10 0%nat [])
  = Done None (mkState n10 1%nat [RpcGetPredecessor (Some n20)]).
Proof.
  exact (checkNewSuccessor_no_closer_node SpecModel.helpers flaky n10
           0%nat 1%nat [] (Some n20) None [Some n30] eq_refl eq_refl I).
Defined.

(** X10 at node 10 with predecessor 5, notified twice by node 5. *)
Lemma Notify_idempotent_witness :
  Notify SpecModel.helpers (W:=nat) (Some n5) (mkState guarded 0%nat [])
  = Done ([Some n20; Some n30], None) (mkState guarded 0%nat []).
Proof.
  exact (Notify_idempotent SpecModel.helpers (mkState guarded 0%nat [])
           (mkState guarded 0%nat []) n5
           ([Some n20; Some n30], None) eq_refl).
Defined.

(** X12 at node 10 with predecessor 5 found dead, then notified by
    node 15. *)
Lemma checkPredecessor_then_Notify_witness :
  exists s1,
    checkPredecessor gone (mkState guarded 0%nat []) = Done None s1
    /\ exists s2,
         Notify SpecModel.helpers (Some n15) s1
         = Done ([Some n20; Some n30], None) s2
         /\ predecessor (vn s2) = Some n15.
Proof.
  destruct (checkPredecessor_then_Notify SpecModel.helpers gone guarded
              0%nat 1%nat [] n5 eq_refl eq_refl) as (s1 & Hrun & Hnext).
  exists s1. split; [exact Hrun|]. apply Hnext.
Defined.

(** X13 at node 10 when node 20 does not answer. *)
Lemma notifySuccessor_rpc_error_witness :
  notifySuccessor silent (mkState n10 0%nat [])
  = Done unreachable
         (mkState n10 1%nat [RpcNotify (Some n20) (node 10)]).
Proof.
  exact (notifySuccessor_rpc_error silent n10 0%nat 1%nat [] (Some n20)
           [Some n30] [] "unreachable"%string eq_refl eq_refl).
Defined.


(** X15 at node 10 with cursor 5, whose target 42 node 20 resolves to a
    list that starts with nil. *)
Lemma fixFingerTable_nil_answer_witness :
  fixFingerTable SpecModel.helpers hollow (mkState (lone 5) 0%nat [])
  = Done None
         (mkState (lone 5) 1%nat [RpcFindSuccessors (Some n20) 1 (id 42)]).
Proof.
  exact (proj1 (fixFingerTable_nil_answer SpecModel.helpers hollow
           (mkState (lone 5) 0%nat [])
           (mkState (lone 5) 1%nat [RpcFindSuccessors (Some n20) 1 (id 42)])
           [] eq_refl)).
Defined.

(** X16 at the same node when node 20 resolves the target to an empty
    list. *)
Lemma fixFingerTable_empty_answer_witness :
  fixFingerTable SpecModel.helpers joined (mkState (lone 5) 0%nat [])
  = Panicked
      (mkState (lone 5) 1%nat [RpcFindSuccessors (Some n20) 1 (id 42)]).
Proof.
  exact (proj1 (fixFingerTable_empty_answer_panics SpecModel.helpers joined
           (mkState (lone 5) 0%nat [])
           (mkState (lone 5) 1%nat [RpcFindSuccessors (Some n20) 1 (id 42)])
           eq_refl)).
Defined.

(** X18 at node 10: three successors of key 15 are asked of a list of
    two. *)
Lemma FindSuccessors_count_beyond_list_witness :
  FindSuccessors SpecModel.helpers silent 3 (id 15) (mkState n10 0%nat [])
  = Panicked (mkState n10 0%nat []).
Proof.
  apply (FindSuccessors_count_beyond_list SpecModel.helpers silent
           (mkState n10 0%nat []) 3 (id 15) n20 [Some n30]).
  - reflexivity.
  - reflexivity.
  - split; vm_compute; [reflexivity|discriminate].
Defined.

(** X19 at node 10: a lookup for -1 nodes. *)
Lemma FindSuccessors_negative_count_witness :
  FindSuccessors SpecModel.helpers silent (-1) (id 15) (mkState n10 0%nat [])
  = Panicked (mkState n10 0%nat []).
Proof.
  apply FindSuccessors_negative_count_panics.
  - split; vm_compute; [discriminate|reflexivity].
  - vm_compute. discriminate.
Defined.

(** X20 at node 10 with node 30 in its last finger, for key 45: the
    iterator yields node 30, then node 20; node 30 does not answer, node 20
    answers with node 50. *)
Lemma FindSuccessors_routes_witness :
  exists s',
    FindSuccessors SpecModel.helpers partitioned 1 (id 45)
                   (mkState fingered 0%nat [])
    = Done ([Some n50], None) s'
    /\ vn s' = fingered
    /\ lookupsSent (trace s') = [Some n30; Some n20].
Proof.
  apply (FindSuccessors_routes_to_first_reachable SpecModel.helpers
           partitioned (mkState fingered 0%nat []) 1 (id 45)
           [n20; n30] 0 [n30] n20 [] [Some n50]).
  - reflexivity.
  - vm_compute. discriminate.
  - split; vm_compute; discriminate.
  - repeat constructor; vm_compute; discriminate.
  - reflexivity.
  - intros x [<-|[]] w. eexists _, _, _. reflexivity.
  - intros w. eexists. reflexivity.
Defined.

(** X21 at the same node when no peer answers: node 30, then node 20 are
    asked, and the lookup fails. *)
Lemma FindSuccessors_exhausts_witness :
  exists s',
    FindSuccessors SpecModel.helpers silent 1 (id 45)
                   (mkState fingered 0%nat [])
    = Done ([], Some ErrExhausted) s'
    /\ vn s' = fingered
    /\ lookupsSent (trace s') = [Some n30; Some n20].
Proof.
  apply (FindSuccessors_exhausts_unreachable SpecModel.helpers silent
           (mkState fingered 0%nat []) 1 (id 45) [n20; n30] 0 [n30; n20]).
  - reflexivity.
  - vm_compute. discriminate.
  - split; vm_compute; discriminate.
  - repeat constructor; vm_compute; discriminate.
  - reflexivity.
  - intros x Hx w. eexists _, _, _. reflexivity.
Defined.

End Runs.
